(** * Huffman coding: a shallow embedding of [huffman.py]

    The development follows the Python class [HuffmanEncoding]: its nested
    [Node] class, the construction of the tree with a minimum priority queue,
    the derivation of the code table, the encoder and the decoder, and the
    attribute lookup of the instance.

    Conventions.
    - A Python [str] is a list of characters ([list ascii]); a character of
      the text and a bit of the stream are both one [ascii].
    - A Python [int] is a [Z].
    - A call that can raise returns a [result]; the instance on which a
      method works is passed and returned explicitly.
    - [MinPQ] comes from the package [friendsbalt.acs], which is no part of
      the repository: it is an interface here ([Class MinPQ]) whose calls
      may raise. [LibraryCalls] says how the queue of the library answers
      the calls of the program, and [KeyedByFreq] what a queue does that
      takes the node alone and orders the nodes by their frequency. *)

From Stdlib Require Import ZArith Lia Ascii String.
From stdpp Require Import base option list gmap strings.

Local Open Scope Z_scope.
Set Warnings "-register-all,-clear-no-such-hyp".

Abbreviation str := (list ascii) (only parsing).

(** ** Exceptions and results *)

(** The exceptions a run can end with. The first four are raised by the
    interpreter, and [QueueError] stands for what a queue raises when
    [del_min] finds it empty; the last four are the error kinds that the
    documentation of the design names, and no statement of the program
    raises them. [OutOfFuel] is no exception: it marks the end of the budget
    of turns of [merge_loop], and [merge_loop_fuel] shows that the budget
    that [_build_huffman_tree] gives never ends on a queue that holds what
    was put into it. *)
Inductive exn : Set :=
  | AttributeError
  | KeyError
  | TypeError
  | RecursionError
  | QueueError
  | OutOfFuel
  | EmptyInputError
  | UnknownSymbolError
  | MalformedStreamError
  | InvalidNavigationError.

Inductive result (A : Type) : Type :=
  | Ok (a : A)
  | Err (e : exn).
Arguments Ok {A} a.
Arguments Err {A} e.

Global Instance result_ret : MRet result := @Ok.
Global Instance result_bind : MBind result := λ A B f m,
  match m with
  | Ok a => f a
  | Err e => Err e
  end.

(** ** The class [Node] *)

(** [Node(freq, char=None, left=None, right=None)]: every field but the
    frequency may be [None]. *)
Inductive Node : Type :=
  mkNode { freq : Z; char : option ascii; left : option Node; right : option Node }.

(** [is_leaf]: [self.char is not None]. Where the program tests
    [node.is_leaf()] and then reads [node.char], the functions below match
    on [char node] once. *)
Definition is_leaf (n : Node) : bool :=
  match char n with
  | Some _ => true
  | None => false
  end.

Fixpoint height (n : Node) : nat :=
  match n with
  | mkNode _ _ l r =>
      S (Nat.max (match l with Some l => height l | None => 0%nat end)
                 (match r with Some r => height r | None => 0%nat end))
  end.

Definition height_opt (n : option Node) : nat :=
  match n with
  | Some n => height n
  | None => 0%nat
  end.

(** ** The decoder *)

(** The move of the cursor on one character of the stream:
    [if bit == '0': node = node.left else: node = node.right]. *)
Definition child (node : Node) (bit : ascii) : option Node :=
  if decide (bit = "0"%char) then left node else right node.

(** The body of the [for] loop of [_decode_encoded_text], from the cursor
    [node] and the characters emitted so far. A child that is [None] makes
    [node.is_leaf()] raise [AttributeError]. The loop hands back the cursor
    with the output, so that statements can say where the stream ended. *)
Fixpoint decode_loop (root node : Node) (encoded_text : str)
    (decoded_text : list ascii) : result (Node * list ascii) :=
  match encoded_text with
  | [] => Ok (node, decoded_text)
  | bit :: rest =>
      match child node bit with
      | None => Err AttributeError
      | Some node =>
          match char node with
          | Some c => decode_loop root root rest (decoded_text ++ [c])
          | None => decode_loop root node rest decoded_text
          end
      end
  end.

Definition _decode_encoded_text (encoded_text : str) (root : Node) : result str :=
  '(_, decoded_text) ← decode_loop root root encoded_text [];
  Ok decoded_text.

(** ** The priority queue *)

(** The calls that the program makes on a [MinPQ] of [friendsbalt.acs]:
    [MinPQ()], [pq.insert(node)] with the node as its one argument,
    [len(pq)] and [pq.del_min()]. The object is mutated in place in the
    program; here a call hands back the new queue, or the exception it
    raises. *)
Class MinPQ := {
  pq : Type;
  pq_new : pq;
  pq_insert : Node → pq → result pq;
  pq_len : pq → result nat;
  pq_del_min : pq → result (option Node * pq)
}.

(** The queue of the library under these calls. Its [insert] takes a key
    and an item, and the class defines no [__len__]: the call of [insert]
    with the node alone raises [TypeError], and so does [len(pq)]. *)
Class LibraryCalls (Q : MinPQ) : Prop := {
  pq_insert_TypeError x q : pq_insert x q = Err TypeError;
  pq_len_TypeError q : pq_len q = Err TypeError
}.

(** A queue that does what the program expects of it: it takes the node
    alone, knows its length, and [del_min] takes out a node of least
    frequency. [pq_items] is the content of a queue, known up to the order.
    On the empty queue [del_min] raises an exception of the queue or
    answers [None]. *)
Class KeyedByFreq (Q : MinPQ) := {
  pq_items : pq → list Node;
  pq_items_new : pq_items pq_new = [];
  pq_insert_items x q :
    ∃ q', pq_insert x q = Ok q' ∧ pq_items q' ≡ₚ x :: pq_items q;
  pq_len_items q : pq_len q = Ok (length (pq_items q));
  pq_del_min_some q :
    pq_items q ≠ [] →
    ∃ x q', pq_del_min q = Ok (Some x, q') ∧ pq_items q ≡ₚ x :: pq_items q' ∧
            Forall (λ y, freq x ≤ freq y) (pq_items q);
  pq_del_min_none q :
    pq_items q = [] →
    pq_del_min q = Err QueueError ∨ ∃ q', pq_del_min q = Ok (None, q')
}.

(** ** The instance and its methods *)

(** The attributes that [__init__] sets on the instance. *)
Record HuffmanEncoding := mkHuffmanEncoding {
  root_node : option Node;
  encoded_text : option str;
  source_text : option str;
  codes : gmap ascii (list ascii)
}.

Definition set_root_node (r : option Node) (self : HuffmanEncoding) :=
  mkHuffmanEncoding r (encoded_text self) (source_text self) (codes self).
Definition set_source_text (s : option str) (self : HuffmanEncoding) :=
  mkHuffmanEncoding (root_node self) (encoded_text self) s (codes self).
Definition set_codes (d : gmap ascii (list ascii)) (self : HuffmanEncoding) :=
  mkHuffmanEncoding (root_node self) (encoded_text self) (source_text self) d.

(** *** The frequency table *)

(** A [dict] whose order of iteration matters is a list of entries in the
    order of insertion. [dict_incr] is [freq_table[char] += 1] on a key that
    is there: the entry keeps its place. *)
Fixpoint dict_incr (c : ascii) (t : list (ascii * Z)) : list (ascii * Z) :=
  match t with
  | [] => []
  | (k, v) :: t' =>
      if decide (k = c) then (k, v + 1) :: t' else (k, v) :: dict_incr c t'
  end.

(** One turn of the counting loop. *)
Definition count_char (freq_table : list (ascii * Z)) (c : ascii) : list (ascii * Z) :=
  if decide (c ∈ freq_table.*1) then dict_incr c freq_table
  else freq_table ++ [(c, 1)].

Definition frequency_table (src : str) : list (ascii * Z) :=
  foldl count_char [] src.

(** *** The code table *)

(** [_build_dictionary(node, prefix)], with [self.root_node] as a parameter.
    A [node] that is [None] stands for the root. [depth] bounds the nesting
    of the calls as the stack of the interpreter does: the caller gives more
    than the height of the tree, so that it runs out only when a missing
    child sends the walk back to the root for ever. *)
Fixpoint _build_dictionary (depth : nat) (self_root_node node : option Node)
    (prefix : str) : result (gmap ascii (list ascii)) :=
  match depth with
  | O => Err RecursionError
  | S depth =>
      let node := match node with None => self_root_node | Some _ => node end in
      match node with
      | None => Err AttributeError
      | Some node =>
          match char node with
          | Some c => Ok {[ c := prefix ]}
          | None =>
              d0 ← _build_dictionary depth self_root_node (left node) (prefix ++ ["0"%char]);
              d1 ← _build_dictionary depth self_root_node (right node) (prefix ++ ["1"%char]);
              Ok (d1 ∪ (d0 ∪ ∅))
          end
      end
  end.

(** *** The encoder *)

(** [''.join(self.codes[char] for char in text)]: a character without an
    entry makes the subscript raise [KeyError]. *)
Fixpoint join_codes (codes : gmap ascii (list ascii)) (text : str) : result str :=
  match text with
  | [] => Ok []
  | c :: text =>
      match codes !! c with
      | None => Err KeyError
      | Some code => rest ← join_codes codes text; Ok (code ++ rest)
      end
  end.

Definition encoding (self : HuffmanEncoding) : result str :=
  match source_text self with
  | None => Ok []
  | Some text => join_codes (codes self) text
  end.

(** [root(self)]. *)
Definition root (self : HuffmanEncoding) : option Node := root_node self.

(** The body of the method [source_text(self)]: it reads the attribute of
    the same name. *)
Definition source_text_method (self : HuffmanEncoding) : option str := source_text self.

Section Builder.
Context `{Q : MinPQ}.

(** *** The tree *)

(** [while len(pq) > 1]: two [del_min], one [insert]. [fuel] bounds the
    number of turns. *)
Fixpoint merge_loop (fuel : nat) (q : pq) : result pq :=
  n ← pq_len q;
  if decide (1 < n)%nat then
    match fuel with
    | O => Err OutOfFuel
    | S fuel =>
        '(l, q) ← pq_del_min q;
        '(r, q) ← pq_del_min q;
        match l, r with
        | Some l, Some r =>
            q ← pq_insert (mkNode (freq l + freq r) None (Some l) (Some r)) q;
            merge_loop fuel q
        | _, _ => Err AttributeError
        end
    end
  else Ok q.

(** [for char, freq in freq_table.items(): pq.insert(self.Node(freq, char))],
    in the order of the frequency table. *)
Fixpoint leaf_queue (freq_table : list (ascii * Z)) (q : pq) : result pq :=
  match freq_table with
  | [] => Ok q
  | (c, f) :: freq_table =>
      q ← pq_insert (mkNode f (Some c) None None) q;
      leaf_queue freq_table q
  end.

(** The budget of the loop is the number of the leaves: a queue that is
    [KeyedByFreq] needs one turn less, and the queue of the library does
    not come to the loop. *)
Definition _build_huffman_tree (self : HuffmanEncoding) (src : str) : result HuffmanEncoding :=
  let freq_table := frequency_table src in
  q ← leaf_queue freq_table pq_new;
  q ← merge_loop (length freq_table) q;
  '(r, _) ← pq_del_min q;
  let self := set_root_node r self in
  d ← _build_dictionary (S (height_opt (root_node self))) (root_node self) (root_node self) [];
  Ok (set_codes d self).

(** [HuffmanEncoding(src, encoded_text, root)]. *)
Definition __init__ (src encoded_text : option str) (root : option Node) :
    result HuffmanEncoding :=
  let self := mkHuffmanEncoding None encoded_text src ∅ in
  match src with
  | Some src => _build_huffman_tree self src
  | None =>
      match encoded_text, root with
      | Some encoded_text, Some root =>
          let self := set_root_node (Some root) self in
          text ← _decode_encoded_text encoded_text root;
          Ok (set_source_text (Some text) self)
      | _, _ => Ok self
      end
  end.

End Builder.

(** ** Attribute lookup *)

Inductive method : Set :=
  | m_init
  | m_build_huffman_tree
  | m_encoding
  | m_source_text
  | m_root
  | m_decode_encoded_text
  | m_build_dictionary.

Inductive value : Type :=
  | VNone
  | VStr (s : str)
  | VNode (n : Node)
  | VDict (d : gmap ascii (list ascii))
  | VMethod (m : method)
  | VClass.

Definition value_of_node (n : option Node) : value :=
  match n with Some n => VNode n | None => VNone end.
Definition value_of_str (s : option str) : value :=
  match s with Some s => VStr s | None => VNone end.

(** [self.__dict__]: the four attributes assigned in [__init__]. *)
Definition instance_dict (self : HuffmanEncoding) : gmap string value :=
  <["codes"%string := VDict (codes self)]>
  (<["source_text"%string := value_of_str (source_text self)]>
  (<["encoded_text"%string := value_of_str (encoded_text self)]>
  (<["root_node"%string := value_of_node (root_node self)]> ∅))).

(** The functions and the nested class in the body of the class. The names
    that every object has from [object] are left out. *)
Definition class_dict : gmap string value :=
  <["__init__"%string := VMethod m_init]>
  (<["Node"%string := VClass]>
  (<["_build_huffman_tree"%string := VMethod m_build_huffman_tree]>
  (<["encoding"%string := VMethod m_encoding]>
  (<["source_text"%string := VMethod m_source_text]>
  (<["root"%string := VMethod m_root]>
  (<["_decode_encoded_text"%string := VMethod m_decode_encoded_text]>
  (<["_build_dictionary"%string := VMethod m_build_dictionary]> ∅))))))).

(** [self.name]: the dictionary of the instance comes before the functions
    of the class. *)
Definition getattr (self : HuffmanEncoding) (name : string) : result value :=
  match instance_dict self !! name with
  | Some v => Ok v
  | None =>
      match class_dict !! name with
      | Some v => Ok v
      | None => Err AttributeError
      end
  end.

(** [self.name()]: a call without arguments, with the value it returns and
    the instance after the call. A value that is no function raises
    [TypeError]; so does a function that wants more arguments.
    [self.__init__()] sets the four attributes anew and takes neither
    branch, and [self._build_dictionary()] starts from the root with the
    empty prefix. *)
Definition call_attr (self : HuffmanEncoding) (name : string) :
    result (value * HuffmanEncoding) :=
  v ← getattr self name;
  match v with
  | VMethod m_init => Ok (VNone, mkHuffmanEncoding None None None ∅)
  | VMethod m_encoding => s ← encoding self; Ok (VStr s, self)
  | VMethod m_source_text => Ok (value_of_str (source_text_method self), self)
  | VMethod m_root => Ok (value_of_node (root self), self)
  | VMethod m_build_dictionary =>
      d ← _build_dictionary (S (height_opt (root_node self))) (root_node self) None [];
      Ok (VDict d, self)
  | _ => Err TypeError
  end.

(** ** Two queues *)

(** The queue of the library, as far as the program comes: [insert] with
    one argument and [len] raise [TypeError]. No call of the program comes
    to its [del_min], and the queue stays empty. *)
Instance LibraryPQ : MinPQ := {|
  pq := unit;
  pq_new := tt;
  pq_insert _ _ := Err TypeError;
  pq_len _ := Err TypeError;
  pq_del_min _ := Err QueueError
|}.

Instance LibraryPQ_calls : LibraryCalls LibraryPQ.
Proof. by split. Qed.

(** A queue on a list that is [KeyedByFreq]: the nodes in the order of
    arrival, [del_min] takes the first of the nodes of least frequency and
    raises on the empty queue. *)
Fixpoint extract_min (l : list Node) : option (Node * list Node) :=
  match l with
  | [] => None
  | x :: l' =>
      match extract_min l' with
      | None => Some (x, [])
      | Some (y, rest) =>
          if decide (freq x ≤ freq y) then Some (x, l') else Some (y, x :: rest)
      end
  end.

Instance ListPQ : MinPQ := {|
  pq := list Node;
  pq_new := [];
  pq_insert x q := Ok (q ++ [x]);
  pq_len q := Ok (length q);
  pq_del_min q :=
    match extract_min q with
    | Some (x, q') => Ok (Some x, q')
    | None => Err QueueError
    end
|}.

#[refine] Instance ListPQ_keyed : KeyedByFreq ListPQ := {|
  pq_items q := q
|}.
Proof.
  - done.
  - intros x q. exists (q ++ [x]). split; [done|]. by rewrite Permutation_app_comm.
  - done.
  - assert (∀ l, extract_min l = None → l = []) as Hnil.
    { intros [|x l]; [done|]. simpl. by repeat case_match. }
    assert (∀ l x rest, extract_min l = Some (x, rest) →
              l ≡ₚ x :: rest ∧ Forall (λ y, freq x ≤ freq y) l) as Hspec.
    { induction l as [|a l IH]; intros x rest; simpl; [done|].
      destruct (extract_min l) as [[y r]|] eqn:E.
      - destruct (IH y r eq_refl) as [Hp Hall]. case_decide; intros [= <- <-].
        + split; [done|]. constructor; [lia|].
          eapply Forall_impl; [exact Hall|]. simpl. intros; lia.
        + split; [rewrite Hp; apply Permutation_swap|].
          constructor; [lia|done].
      - apply Hnil in E as ->. intros [= <- <-].
        split; [done|]. constructor; [lia|constructor]. }
    intros q Hq. simpl. destruct (extract_min q) as [[x q']|] eqn:E.
    + exists x, q'. split; [done|]. by apply Hspec.
    + by apply Hnil in E.
  - intros q Hq. simpl in *. subst q. by left.
Defined.

(** ** Trees in the shape the builder makes *)

(** A node is either a leaf, with a symbol and no child, or an internal
    node, with two children and no symbol; an internal node carries the sum
    of the frequencies of its children. The check follows the fields of
    [Node] as they are. *)
Fixpoint well_formed (n : Node) : bool :=
  match n with
  | mkNode f c l r =>
      match c, l, r with
      | Some _, None, None => true
      | None, Some l, Some r =>
          bool_decide (f = freq l + freq r) && well_formed l && well_formed r
      | _, _, _ => false
      end
  end.

(** The same without the condition on the frequencies: a node is either a
    leaf, with a symbol and no child, or an internal node, with two
    children and no symbol. *)
Fixpoint well_shaped (n : Node) : bool :=
  match n with
  | mkNode _ c l r =>
      match c, l, r with
      | Some _, None, None => true
      | None, Some l, Some r => well_shaped l && well_shaped r
      | _, _, _ => false
      end
  end.

(** The symbols on the leaves of a node, from left to right. *)
Fixpoint leaf_chars (n : Node) : list ascii :=
  match n with
  | mkNode _ c l r =>
      match c with
      | Some c => [c]
      | None =>
          match l with Some l => leaf_chars l | None => [] end ++
          match r with Some r => leaf_chars r | None => [] end
      end
  end.

(** The trees of well-formed nodes as a type of their own: the proofs go by
    induction on [tree] and come back to [Node] through [node_of]. *)
Inductive tree : Type :=
  | Leaf (f : Z) (c : ascii)
  | Branch (f : Z) (l r : tree).

Fixpoint node_of (t : tree) : Node :=
  match t with
  | Leaf f c => mkNode f (Some c) None None
  | Branch f l r => mkNode f None (Some (node_of l)) (Some (node_of r))
  end.

Definition weight (t : tree) : Z :=
  match t with
  | Leaf f _ => f
  | Branch f _ _ => f
  end.

Fixpoint leaves (t : tree) : list (ascii * Z) :=
  match t with
  | Leaf f c => [(c, f)]
  | Branch _ l r => leaves l ++ leaves r
  end.

(** The symbols with the path from the root to their leaf. *)
Fixpoint paths (t : tree) : list (ascii * list ascii) :=
  match t with
  | Leaf _ c => [(c, [])]
  | Branch _ l r =>
      ((λ e, (e.1, "0"%char :: e.2)) <$> paths l) ++
      ((λ e, (e.1, "1"%char :: e.2)) <$> paths r)
  end.

(** Frequencies are positive on the leaves and add up at the branches. *)
Fixpoint tree_ok (t : tree) : Prop :=
  match t with
  | Leaf f _ => 0 < f
  | Branch f l r => f = weight l + weight r ∧ tree_ok l ∧ tree_ok r
  end.

Fixpoint tree_size (t : tree) : nat :=
  match t with
  | Leaf _ _ => 1
  | Branch _ l r => S (tree_size l + tree_size r)
  end.

Definition is_branch (t : tree) : Prop :=
  match t with
  | Leaf _ _ => False
  | Branch _ _ _ => True
  end.

(** ** The vocabulary of the statements *)

(** The number of times [c] stands in [src]. *)
Definition occurrences (c : ascii) (src : str) : Z :=
  Z.of_nat (length (filter (c =.) src)).

(** [sub d s t]: the tree [s] stands in [t] at depth [d]. *)
Inductive sub : nat → tree → tree → Prop :=
  | sub_here t : sub 0 t t
  | sub_left d s f l r : sub d s l → sub (S d) s (Branch f l r)
  | sub_right d s f l r : sub d s r → sub (S d) s (Branch f l r).

(** Both trees of the pair [x] weigh at most as much as both trees of [y]. *)
Definition pair_le (x y : tree * tree) : Prop :=
  weight x.1 ≤ weight y.1 ∧ weight x.1 ≤ weight y.2 ∧
  weight x.2 ≤ weight y.1 ∧ weight x.2 ≤ weight y.2.

(** The history of the merges of a forest [F]: the pairs of trees taken out
    of the queue, in the order of the merges. Every branch of the forest was
    made from one of the pairs, a pair weighs at most as much as the pairs
    after it, and no tree of a pair is heavier than a tree still waiting in
    the queue. *)
Definition ranked (F : list tree) : Prop :=
  ∃ L : list (tree * tree),
    (∀ T d f a b, T ∈ F → sub d (Branch f a b) T → (a, b) ∈ L) ∧
    (∀ i j x y, (i < j)%nat → L !! i = Some x → L !! j = Some y → pair_le x y) ∧
    (∀ x T, x ∈ L → T ∈ F → weight x.1 ≤ weight T ∧ weight x.2 ≤ weight T).

(** What holds of the forest during the merging loop on [src]. *)
Definition forest_inv (src : str) (F : list tree) : Prop :=
  Forall tree_ok F ∧ concat (leaves <$> F) ≡ₚ frequency_table src ∧ ranked F.

(** The bit that the decoder takes a character for. *)
Definition as_bit (c : ascii) : ascii :=
  if decide (c = "0"%char) then "0"%char else "1"%char.

(** *** Texts, trees and instances of the examples *)

Definition abracadabra : str := list_ascii_of_string "abracadabra".

(** A text of one symbol, written [n + 1] times. *)
Definition one_symbol (c : ascii) (n : nat) : str := replicate (S n) c.

(** The tree of the text "aabc" on the queue [ListPQ]: "a" has the code
    "0", "b" the code "10" and "c" the code "11". *)
Definition aabc_root : Node :=
  mkNode 4 None
    (Some (mkNode 2 (Some "a"%char) None None))
    (Some (mkNode 2 None
             (Some (mkNode 1 (Some "b"%char) None None))
             (Some (mkNode 1 (Some "c"%char) None None)))).

(** The tree of the text "ab": "a" on the left, "b" on the right. *)
Definition ab_root : Node :=
  mkNode 2 None (Some (mkNode 1 (Some "a"%char) None None))
                (Some (mkNode 1 (Some "b"%char) None None)).

(** The instance that the constructor makes of the stream "01" and
    [ab_root]: it holds the decoded text "ab" and an empty code table. *)
Definition decoded_ab : HuffmanEncoding :=
  mkHuffmanEncoding (Some ab_root) (Some (list_ascii_of_string "01"))
    (Some (list_ascii_of_string "ab")) ∅.

(** *** Further vocabulary *)

(** The symbols of a text, each once, in the order of their first
    occurrence. *)
Definition first_occurrences (src : str) : list ascii :=
  reverse (remove_dups (reverse src)).

(** A character that is a bit. *)
Definition is_bit (c : ascii) : Prop := c = "0"%char ∨ c = "1"%char.

(** * Proofs *)

(** ** Trees *)

Section TreeFacts.
Implicit Types (t s l r : tree) (c : ascii) (p code prefix : list ascii).

Lemma freq_node_of t : freq (node_of t) = weight t.
Proof. by destruct t. Qed.

Lemma node_of_inj t s : node_of t = node_of s → t = s.
Proof.
  revert s. induction t as [f c|f l IHl r IHr]; intros [g d|g l' r']; simpl; try done.
  - by intros [= -> ->].
  - intros [= -> Hl Hr]. by rewrite (IHl _ Hl), (IHr _ Hr).
Qed.

Lemma well_formed_node_of t : tree_ok t → well_formed (node_of t) = true.
Proof.
  induction t as [f c|f l IHl r IHr]; simpl; [done|].
  intros (-> & Hl & Hr). rewrite !freq_node_of, IHl, IHr by done.
  by rewrite bool_decide_eq_true_2.
Qed.

Lemma leaf_chars_node_of t : leaf_chars (node_of t) = (leaves t).*1.
Proof.
  induction t as [f c|f l IHl r IHr]; simpl; [done|].
  by rewrite fmap_app, IHl, IHr.
Qed.

Lemma paths_symbols t : (paths t).*1 = (leaves t).*1.
Proof.
  induction t as [f c|f l IHl r IHr]; simpl; [done|].
  rewrite !fmap_app, <-!list_fmap_compose, <-IHl, <-IHr. done.
Qed.

Lemma weight_pos t : tree_ok t → 0 < weight t.
Proof.
  induction t as [f c|f l IHl r IHr]; simpl; [done|].
  intros (-> & Hl & Hr). specialize (IHl Hl). specialize (IHr Hr). lia.
Qed.

Lemma elem_of_paths_branch f l r c p :
  (c, p) ∈ paths (Branch f l r) ↔
  (∃ p', p = "0"%char :: p' ∧ (c, p') ∈ paths l) ∨
  (∃ p', p = "1"%char :: p' ∧ (c, p') ∈ paths r).
Proof.
  simpl. rewrite elem_of_app, !list_elem_of_fmap. split.
  - intros [([c' p'] & [= -> ->] & H)|([c' p'] & [= -> ->] & H)]; [left|right]; eauto.
  - intros [(p' & -> & H)|(p' & -> & H)]; [left|right]; by exists (c, p').
Qed.

Lemma paths_nonempty t : paths t ≠ [].
Proof.
  induction t as [f c|f l IHl r IHr]; simpl; [done|].
  destruct (paths l); [done|]. done.
Qed.

(** No path of a tree goes on through a leaf. *)
Lemma paths_prefix_free t c1 c2 p1 p2 :
  (c1, p1) ∈ paths t → (c2, p2) ∈ paths t → p1 `prefix_of` p2 → c1 = c2 ∧ p1 = p2.
Proof.
  revert p1 p2. induction t as [f c|f l IHl r IHr]; intros p1 p2.
  - simpl. rewrite !list_elem_of_singleton. by intros [= -> ->] [= -> ->].
  - rewrite !elem_of_paths_branch.
    intros [(q1 & -> & H1)|(q1 & -> & H1)] [(q2 & -> & H2)|(q2 & -> & H2)] [k Hk];
      simplify_eq/=.
    + destruct (IHl q1 (q1 ++ k) H1 H2) as [-> Hq]; [by exists k|]. by rewrite <-Hq.
    + destruct (IHr q1 (q1 ++ k) H1 H2) as [-> Hq]; [by exists k|]. by rewrite <-Hq.
Qed.

(** *** The decoder on a tree *)

(** From the cursor on a branch [s], the bits of a path of [s] emit its
    symbol and bring the cursor back to the root. *)
Lemma decode_loop_path (root : Node) s c p rest acc :
  is_branch s → (c, p) ∈ paths s →
  decode_loop root (node_of s) (p ++ rest) acc = decode_loop root root rest (acc ++ [c]).
Proof.
  revert p. induction s as [f c'|f l IHl r IHr]; intros p; [done|].
  intros _. rewrite elem_of_paths_branch.
  intros [(p' & -> & H)|(p' & -> & H)]; simpl.
  - destruct l as [g d|g l1 l2].
    + simpl in H. apply list_elem_of_singleton in H as [= -> ->]. done.
    + apply IHl; done.
  - destruct r as [g d|g r1 r2].
    + simpl in H. apply list_elem_of_singleton in H as [= -> ->]. done.
    + apply IHr; done.
Qed.

(** The bits of a text, code after code, decode to the text. *)
Lemma decode_loop_join t (d : gmap ascii (list ascii)) text :
  is_branch t →
  (∀ c code, c ∈ text → d !! c = Some code → (c, code) ∈ paths t) →
  ∀ bits acc, join_codes d text = Ok bits →
  decode_loop (node_of t) (node_of t) bits acc = Ok (node_of t, acc ++ text).
Proof.
  intros Hb. induction text as [|c text IH]; intros Hd bits acc; simpl.
  - intros [= <-]. simpl. by rewrite app_nil_r.
  - destruct (d !! c) as [code|] eqn:Hc; [|done].
    destruct (join_codes d text) as [rest|] eqn:Hj; [|done].
    intros [= <-]. rewrite decode_loop_path with (c := c).
    + rewrite IH with (bits := rest); [by rewrite <-app_assoc| |done].
      intros c' code' Hin. apply Hd. by right.
    + done.
    + apply Hd; [by left|done].
Qed.

(** *** The code table of a tree *)

Lemma height_node_of_branch f l r :
  height (node_of (Branch f l r)) = S (Nat.max (height (node_of l)) (height (node_of r))).
Proof. done. Qed.

(** With a budget of the height of the tree, [_build_dictionary] returns a
    table; its entries are paths of the tree behind the prefix, and every
    symbol of the tree has an entry. *)
Lemma build_dictionary_tree t depth (rootn : option Node) prefix :
  (height (node_of t) ≤ depth)%nat →
  ∃ d, _build_dictionary depth rootn (Some (node_of t)) prefix = Ok d ∧
       (∀ c code, d !! c = Some code → ∃ p, (c, p) ∈ paths t ∧ code = prefix ++ p) ∧
       (∀ c, c ∈ (paths t).*1 → is_Some (d !! c)).
Proof.
  revert depth prefix. induction t as [f c|f l IHl r IHr]; intros depth prefix Hh.
  - destruct depth as [|depth]; [simpl in Hh; lia|]. simpl.
    eexists; split; [done|]. split.
    + intros c' code [-> ->]%lookup_singleton_Some. exists [].
      rewrite app_nil_r. split; [by left|done].
    + intros c' Hc. apply list_elem_of_singleton in Hc as ->.
      rewrite lookup_singleton_eq. by eexists.
  - rewrite height_node_of_branch in Hh.
    destruct depth as [|depth]; [lia|].
    destruct (IHl depth (prefix ++ ["0"%char])) as (d0 & E0 & S0 & C0); [lia|].
    destruct (IHr depth (prefix ++ ["1"%char])) as (d1 & E1 & S1 & C1); [lia|].
    exists (d1 ∪ (d0 ∪ ∅)). split.
    { cbn [_build_dictionary node_of char left right]. rewrite E0. simpl. rewrite E1. done. }
    rewrite (right_id_L ∅ (∪) d0). split.
    + intros c code [H|[_ H]]%lookup_union_Some_raw.
      * destruct (S1 _ _ H) as (p & Hp & ->). exists ("1"%char :: p).
        rewrite elem_of_paths_branch, <-app_assoc. split; [right; eauto|done].
      * destruct (S0 _ _ H) as (p & Hp & ->). exists ("0"%char :: p).
        rewrite elem_of_paths_branch, <-app_assoc. split; [left; eauto|done].
    + intros c. simpl. rewrite fmap_app, <-!list_fmap_compose, elem_of_app.
      intros [H|H].
      * destruct (C0 c H) as [x Hx]. destruct (d1 !! c) as [y|] eqn:Hy.
        -- exists y. apply lookup_union_Some_raw. by left.
        -- exists x. apply lookup_union_Some_raw. by right.
      * destruct (C1 c H) as [y Hy]. exists y. apply lookup_union_Some_raw. by left.
Qed.

End TreeFacts.

(** ** The frequency table *)

Section FrequencyTable.
Implicit Types (c k : ascii) (v : Z) (t : list (ascii * Z)) (src : list ascii).

Lemma occurrences_snoc c src c0 :
  occurrences c (src ++ [c0]) = occurrences c src + (if decide (c = c0) then 1 else 0).
Proof.
  unfold occurrences. rewrite filter_app, length_app, Nat2Z.inj_add. f_equal.
  rewrite filter_cons, filter_nil. by case_decide.
Qed.

Lemma occurrences_nonneg c src : 0 ≤ occurrences c src.
Proof. unfold occurrences. lia. Qed.

Lemma occurrences_pos c src : c ∈ src ↔ 0 < occurrences c src.
Proof.
  unfold occurrences. split.
  - intros H. assert (c ∈ filter (c =.) src) as Hin by by apply list_elem_of_filter.
    destruct (filter (c =.) src); [by apply elem_of_nil in Hin|simpl; lia].
  - intros H. destruct (filter (c =.) src) as [|x l] eqn:E; [simpl in H; lia|].
    assert (x ∈ filter (c =.) src) as Hin by (rewrite E; by left).
    apply list_elem_of_filter in Hin as [-> Hin]. done.
Qed.

Lemma dict_incr_keys c t : (dict_incr c t).*1 = t.*1.
Proof.
  induction t as [|[k v] t IH]; csimpl; [done|].
  case_decide; csimpl; [done|]. by rewrite IH.
Qed.

Lemma elem_of_dict_incr c t k v :
  NoDup t.*1 →
  (k, v) ∈ dict_incr c t ↔ (k ≠ c ∧ (k, v) ∈ t) ∨ (k = c ∧ (c, v - 1) ∈ t).
Proof.
  induction t as [|[k0 v0] t IH]; simpl.
  - intros _. rewrite !elem_of_nil. naive_solver.
  - intros [Hk0 Hnd]%NoDup_cons. specialize (IH Hnd).
    assert (∀ w, (k0, w) ∉ t) as Hfresh.
    { intros w Hw. apply Hk0. apply list_elem_of_fmap. by exists (k0, w). }
    case_decide as Hc.
    + subst k0. rewrite !elem_of_cons. split.
      * intros [[= -> ->]|H].
        -- right. split; [done|]. left. f_equal. lia.
        -- left. split; [|by right]. intros ->. by eapply Hfresh.
      * intros [[Hne [[= -> ->]|H]]|[-> [[= Hv]|H]]]; [done|by right|left; f_equal; lia|].
        by apply Hfresh in H.
    + rewrite !elem_of_cons, IH. split.
      * intros [[= -> ->]|[[Hne H]|[-> H]]]; [left; split; [done|by left]|left; split; [done|by right]|].
        right. split; [done|by right].
      * intros [[Hne [[= -> ->]|H]]|[-> [[= -> _]|H]]]; [by left|right; left; done|done|].
        right. right. done.
Qed.

Lemma frequency_table_snoc src c :
  frequency_table (src ++ [c]) = count_char (frequency_table src) c.
Proof. unfold frequency_table. by rewrite foldl_app. Qed.

(** The table has one entry for each symbol of the text, with the number
    of its occurrences. *)
Lemma frequency_table_spec src :
  NoDup (frequency_table src).*1 ∧
  ∀ c v, (c, v) ∈ frequency_table src ↔ c ∈ src ∧ v = occurrences c src.
Proof.
  induction src as [|c0 src [IHnd IH]] using rev_ind.
  - split; [constructor|]. intros c v. unfold frequency_table. simpl.
    rewrite !elem_of_nil. naive_solver.
  - rewrite frequency_table_snoc. unfold count_char.
    set (t := frequency_table src) in *. case_decide as Hin.
    + split; [by rewrite dict_incr_keys|].
      intros c v. rewrite elem_of_dict_incr, !IH, elem_of_app, list_elem_of_singleton,
        occurrences_snoc by done.
      apply list_elem_of_fmap in Hin as ([k w] & -> & Hin). simpl.
      apply IH in Hin as [Hin ->].
      case_decide; split; naive_solver lia.
    + assert (c0 ∉ src) as Hnot.
      { intros H. apply Hin. apply list_elem_of_fmap. exists (c0, occurrences c0 src).
        split; [done|]. by apply IH. }
      assert (occurrences c0 src = 0) as H0.
      { pose proof (occurrences_nonneg c0 src). rewrite occurrences_pos in Hnot. lia. }
      split.
      * rewrite fmap_app. simpl. apply NoDup_app. split; [done|].
        split; [|apply NoDup_singleton].
        intros x Hx ->%list_elem_of_singleton. done.
      * intros c v. rewrite !elem_of_app, !list_elem_of_singleton, IH, occurrences_snoc.
        case_decide; [subst c; rewrite H0|]; split; naive_solver lia.
Qed.

Lemma frequency_table_nonempty src : src ≠ [] → frequency_table src ≠ [].
Proof.
  destruct src as [|c src]; [done|]. intros _ H.
  destruct (frequency_table_spec (c :: src)) as [_ Hspec].
  assert ((c, occurrences c (c :: src)) ∈ frequency_table (c :: src)) as Hin.
  { apply Hspec. split; [by left|done]. }
  rewrite H in Hin. by apply elem_of_nil in Hin.
Qed.

End FrequencyTable.

(** ** The forest in the queue *)

Lemma fmap_perm_cons_inv {A B} (f : A → B) (x : B) (l : list B) (F : list A) :
  x :: l ≡ₚ f <$> F → ∃ a F', x = f a ∧ F ≡ₚ a :: F' ∧ l ≡ₚ f <$> F'.
Proof.
  intros H. assert (x ∈ f <$> F) as Hx by (rewrite <-H; by left).
  apply list_elem_of_fmap in Hx as (a & -> & Ha).
  apply elem_of_Permutation in Ha as [F' HF'].
  exists a, F'. split; [done|]. split; [done|].
  rewrite HF' in H. csimpl in H. by apply Permutation_cons_inv in H.
Qed.

Lemma ranked_perm F F' : F ≡ₚ F' → ranked F → ranked F'.
Proof.
  intros HF (L & R1 & R2 & R3). exists L. split; [|split; [done|]].
  - intros T d f a b HT. apply (R1 T). by rewrite HF.
  - intros x T Hx HT. apply R3; [done|]. by rewrite HF.
Qed.

Lemma forest_inv_perm src F F' : F ≡ₚ F' → forest_inv src F → forest_inv src F'.
Proof.
  intros HF (Hok & Hl & Hr). split; [by rewrite <-HF|]. split; [|by eapply ranked_perm].
  by rewrite <-HF.
Qed.

Lemma ranked_merge a b rest :
  Forall tree_ok (a :: b :: rest) →
  Forall (λ z, weight a ≤ weight z) (b :: rest) →
  Forall (λ z, weight b ≤ weight z) rest →
  ranked (a :: b :: rest) →
  ranked (Branch (weight a + weight b) a b :: rest).
Proof.
  intros Hok Ha Hb (L & R1 & R2 & R3).
  apply Forall_cons in Hok as [Hoka Hok]. apply Forall_cons in Hok as [Hokb Hok].
  apply weight_pos in Hoka, Hokb.
  apply Forall_cons in Ha as [Hab Ha].
  rewrite Forall_forall in Ha, Hb.
  exists (L ++ [(a, b)]). split; [|split].
  - intros T d f x y [->|HT]%elem_of_cons Hsub.
    + inversion Hsub; subst.
      * apply elem_of_app. right. by left.
      * apply elem_of_app. left. eapply (R1 a); [by left|done].
      * apply elem_of_app. left. eapply (R1 b); [right; by left|done].
    + apply elem_of_app. left. eapply (R1 T); [by do 2 right|done].
  - intros i j x y Hij Hi [Hj|[Hlen Hj]]%lookup_app_Some.
    + apply lookup_app_Some in Hi as [Hi|[Hlen' _]].
      * by eapply R2.
      * apply lookup_lt_Some in Hj. lia.
    + apply lookup_app_Some in Hi as [Hi|[Hlen' Hi]].
      * destruct (j - length L)%nat as [|k] eqn:Hk; [|by destruct k].
        simpl in Hj. injection Hj as <-.
        assert (x ∈ L) as Hx by (by eapply list_elem_of_lookup_2).
        destruct (R3 x a Hx) as [? ?]; [by left|].
        destruct (R3 x b Hx) as [? ?]; [right; by left|].
        by repeat split.
      * apply lookup_lt_Some in Hi, Hj. simpl in Hi, Hj. lia.
  - intros x T [Hx|Hx]%elem_of_app [->|HT]%elem_of_cons.
    + destruct (R3 x a Hx) as [? ?]; [by left|]. simpl. lia.
    + apply R3; [done|]. by do 2 right.
    + apply list_elem_of_singleton in Hx as ->. simpl. lia.
    + apply list_elem_of_singleton in Hx as ->. simpl.
      specialize (Ha T HT). specialize (Hb T HT). lia.
Qed.

Lemma forest_inv_merge src a b rest :
  forest_inv src (a :: b :: rest) →
  Forall (λ z, weight a ≤ weight z) (b :: rest) →
  Forall (λ z, weight b ≤ weight z) rest →
  forest_inv src (Branch (weight a + weight b) a b :: rest).
Proof.
  intros (Hok & Hl & Hr) Ha Hb. split; [|split].
  - pose proof Hok as Hok'.
    apply Forall_cons in Hok as [Hoka Hok]. apply Forall_cons in Hok as [Hokb Hok].
    constructor; [|done]. simpl. done.
  - rewrite <-Hl. csimpl. by rewrite <-app_assoc.
  - by apply ranked_merge.
Qed.

Lemma forest_inv_leaves src :
  forest_inv src ((λ e, Leaf e.2 e.1) <$> frequency_table src).
Proof.
  destruct (frequency_table_spec src) as [_ Hspec].
  split; [|split].
  - apply Forall_fmap, Forall_forall. intros [c v] [Hc ->]%Hspec. simpl.
    by apply occurrences_pos.
  - clear Hspec. induction (frequency_table src) as [|[c v] t IH]; csimpl; [done|].
    by rewrite IH.
  - exists []. split; [|split].
    + intros T d f a b ([c v] & -> & _)%list_elem_of_fmap Hsub. inversion Hsub.
    + intros i j x y _ Hi. by rewrite lookup_nil in Hi.
    + intros x T Hx. by apply elem_of_nil in Hx.
Qed.

Section BuilderFacts.
Context `{Q : MinPQ} {K : KeyedByFreq Q}.

Lemma leaf_queue_items freq_table q0 :
  ∃ q, leaf_queue freq_table q0 = Ok q ∧
       pq_items q ≡ₚ (node_of <$> ((λ e, Leaf e.2 e.1) <$> freq_table)) ++ pq_items q0.
Proof.
  revert q0. induction freq_table as [|[c v] t IH]; intros q0; csimpl.
  - by exists q0.
  - destruct (pq_insert_items (mkNode v (Some c) None None) q0) as (q1 & -> & Hq1).
    cbn [mbind result_bind]. destruct (IH q1) as (q & -> & Hq).
    exists q. split; [done|]. rewrite Hq, Hq1. by rewrite <-Permutation_middle.
Qed.

Lemma merge_loop_done (fuel : nat) (q : pq) :
  ¬ (1 < length (pq_items q))%nat → merge_loop fuel q = Ok q.
Proof.
  intros H. destruct fuel; cbn [merge_loop]; rewrite pq_len_items;
    cbn [mbind result_bind]; by rewrite decide_False.
Qed.

(** A turn of the loop on a queue of two nodes or more: both [del_min]
    return a node, and the queue is one node shorter after the [insert]. *)
Lemma merge_loop_turn (q : pq) :
  (1 < length (pq_items q))%nat →
  ∃ q', (∀ fuel, merge_loop (S fuel) q = merge_loop fuel q') ∧
        length (pq_items q) = S (length (pq_items q')).
Proof.
  intros Hgt.
  destruct (pq_del_min_some q) as (x & q1 & E1 & Hq1 & _).
  { intros E. rewrite E in Hgt. simpl in Hgt. lia. }
  destruct (pq_del_min_some q1) as (y & q2 & E2 & Hq2 & _).
  { intros E. rewrite Hq1, E in Hgt. simpl in Hgt. lia. }
  destruct (pq_insert_items (mkNode (freq x + freq y) None (Some x) (Some y)) q2)
    as (q3 & E3 & Hq3).
  exists q3. split.
  - intros fuel. cbn [merge_loop]. rewrite pq_len_items. cbn [mbind result_bind].
    rewrite decide_True by done.
    rewrite E1. cbn [mbind result_bind]. rewrite E2. cbn [mbind result_bind].
    rewrite E3. done.
  - rewrite Hq3, Hq1, Hq2. done.
Qed.

(** On a queue that is [KeyedByFreq] a budget of the length of the queue
    is enough: a larger one gives the same result, and the loop never stops
    for want of turns. *)
Lemma merge_loop_fuel (fuel : nat) (q : pq) :
  (length (pq_items q) ≤ fuel)%nat →
  merge_loop fuel q = merge_loop (length (pq_items q)) q ∧
  merge_loop fuel q ≠ Err OutOfFuel.
Proof.
  assert (∀ n m q, (length (pq_items q) ≤ n)%nat → (length (pq_items q) ≤ m)%nat →
                   merge_loop n q = merge_loop m q ∧ merge_loop n q ≠ Err OutOfFuel) as H.
  { induction n as [|n IH]; intros m q' Hn Hm.
    - rewrite !merge_loop_done by lia. done.
    - destruct (decide (1 < length (pq_items q'))%nat) as [Hgt|Hle].
      + destruct m as [|m]; [lia|].
        destruct (merge_loop_turn q' Hgt) as (q1 & Hturn & Hlen).
        rewrite !Hturn. apply IH; lia.
      + rewrite !merge_loop_done by done. done. }
  intros Hlen. by apply H.
Qed.

(** The merging loop ends, with one tree in the queue, and keeps what the
    merge of the two lightest trees keeps. *)
Lemma merge_loop_trees (P : list tree → Prop) :
  (∀ F F', F ≡ₚ F' → P F → P F') →
  (∀ a b rest, P (a :: b :: rest) →
     Forall (λ z, weight a ≤ weight z) (b :: rest) →
     Forall (λ z, weight b ≤ weight z) rest →
     P (Branch (weight a + weight b) a b :: rest)) →
  ∀ fuel q F, (length (pq_items q) ≤ fuel)%nat → F ≠ [] →
  pq_items q ≡ₚ node_of <$> F → P F →
  ∃ q' T, merge_loop fuel q = Ok q' ∧ pq_items q' = [node_of T] ∧ P [T].
Proof.
  intros Hperm Hstep. induction fuel as [|fuel IH]; intros q F Hlen HF Hitems HP.
  - rewrite Hitems, length_fmap in Hlen.
    destruct F; [done|simpl in Hlen; lia].
  - cbn [merge_loop]. rewrite pq_len_items. cbn [mbind result_bind].
    case_decide as Hgt.
    + destruct (pq_del_min_some q) as (x & q1 & -> & Hq1 & Hminx).
      { intros E. rewrite E in Hgt. simpl in Hgt. lia. }
      destruct (pq_del_min_some q1) as (y & q2 & E2 & Hq2 & Hminy).
      { intros E. rewrite Hq1, E in Hgt. simpl in Hgt. lia. }
      cbn [mbind result_bind]. rewrite E2. cbn [mbind result_bind].
      destruct (pq_insert_items (mkNode (freq x + freq y) None (Some x) (Some y)) q2)
        as (q3 & -> & Hq3).
      cbn [mbind result_bind].
      assert (x :: y :: pq_items q2 ≡ₚ node_of <$> F) as HxyF by by rewrite <-Hq2, <-Hq1.
      apply fmap_perm_cons_inv in HxyF as (a & F1 & -> & HF1 & HyF).
      apply fmap_perm_cons_inv in HyF as (b & rest & -> & HF2 & Hrest).
      assert (F ≡ₚ a :: b :: rest) as HFab by by rewrite HF1, HF2.
      rewrite !freq_node_of in Hq3.
      apply (IH _ (Branch (weight a + weight b) a b :: rest)).
      * rewrite Hq3. simpl. rewrite Hq1, Hq2 in Hlen. simpl in Hlen. lia.
      * done.
      * rewrite Hq3, Hrest. done.
      * apply Hstep.
        -- by apply (Hperm F).
        -- rewrite Hitems, HFab, Forall_fmap in Hminx.
           apply Forall_cons in Hminx as [_ Hminx].
           eapply Forall_impl; [exact Hminx|]. intros z. simpl. by rewrite !freq_node_of.
        -- rewrite Hq2, Hrest in Hminy. apply Forall_cons in Hminy as [_ Hminy].
           rewrite Forall_fmap in Hminy.
           eapply Forall_impl; [exact Hminy|]. intros z. simpl. by rewrite !freq_node_of.
    + rewrite Hitems, length_fmap in Hgt.
      destruct F as [|T [|T' F]]; [done| |simpl in Hgt; lia].
      exists q, T. split; [done|]. split; [|done].
      by apply Permutation_singleton_r in Hitems.
Qed.

End BuilderFacts.

(** ** The constructor on a source text *)

Lemma join_codes_ok (d : gmap ascii (list ascii)) (text : list ascii) :
  (∀ c, c ∈ text → is_Some (d !! c)) → ∃ bits, join_codes d text = Ok bits.
Proof.
  induction text as [|c text IH]; intros Hd; simpl; [by eexists|].
  destruct (Hd c) as [code ->]; [by left|].
  destruct IH as [rest ->]; [intros c' Hc'; apply Hd; by right|].
  by eexists.
Qed.

Lemma NoDup_fst_unique {A B} (l : list (A * B)) x y1 y2 :
  NoDup l.*1 → (x, y1) ∈ l → (x, y2) ∈ l → y1 = y2.
Proof.
  induction l as [|[a b] l IH]; csimpl; [by rewrite elem_of_nil|].
  intros [Ha Hnd]%NoDup_cons. rewrite !elem_of_cons.
  intros [[= -> ->]|H1] [[= ->]|H2]; try done.
  - destruct Ha. apply list_elem_of_fmap. by exists (a, y2).
  - simplify_eq. destruct Ha. apply list_elem_of_fmap. by exists (a, y1).
  - by apply IH.
Qed.

Lemma forest_inv_tree src T :
  forest_inv src [T] →
  tree_ok T ∧ leaves T ≡ₚ frequency_table src ∧ NoDup (leaves T).*1 ∧ ranked [T].
Proof.
  intros (Hok & Hl & Hr). csimpl in Hl. rewrite app_nil_r in Hl.
  split; [by apply Forall_inv in Hok|]. split; [done|]. split; [|done].
  rewrite Hl. apply frequency_table_spec.
Qed.

Lemma leaves_spec src T c v :
  leaves T ≡ₚ frequency_table src →
  (c, v) ∈ leaves T ↔ c ∈ src ∧ v = occurrences c src.
Proof. intros ->. apply frequency_table_spec. Qed.

Lemma symbols_spec src T c :
  leaves T ≡ₚ frequency_table src → c ∈ (leaves T).*1 ↔ c ∈ src.
Proof.
  intros Hl. rewrite list_elem_of_fmap. split.
  - intros ([c' v] & -> & H). by apply (leaves_spec src) in H as [? _].
  - intros H. exists (c, occurrences c src). split; [done|]. by apply (leaves_spec src).
Qed.

Section ConstructorFacts.
Context `{Q : MinPQ} {K : KeyedByFreq Q}.

(** On a text that is not empty the builder returns: the root is a tree
    that the merging loop made of the frequency table, and the code table
    holds exactly the paths of that tree. *)
Lemma build_huffman_tree_spec self src :
  src ≠ [] →
  ∃ T d, _build_huffman_tree self src = Ok (set_codes d (set_root_node (Some (node_of T)) self)) ∧
         forest_inv src [T] ∧
         (∀ c code, d !! c = Some code ↔ (c, code) ∈ paths T).
Proof.
  intros Hsrc. unfold _build_huffman_tree. cbv zeta.
  destruct (leaf_queue_items (frequency_table src) pq_new) as (q0 & -> & Hq0).
  rewrite pq_items_new, app_nil_r in Hq0. cbn [mbind result_bind].
  destruct (merge_loop_trees (forest_inv src) (forest_inv_perm src)
              (forest_inv_merge src)
              (length (frequency_table src)) q0
              ((λ e, Leaf e.2 e.1) <$> frequency_table src))
    as (q & T & -> & Hq & Hinv).
  { by rewrite Hq0, !length_fmap. }
  { intros H. apply fmap_nil_inv in H. by apply frequency_table_nonempty in H. }
  { done. }
  { apply forest_inv_leaves. }
  cbn [mbind result_bind].
  destruct (pq_del_min_some q) as (x & q' & -> & Hx & _); [by rewrite Hq|].
  rewrite Hq in Hx. apply Permutation_singleton_l in Hx. injection Hx as <- _.
  cbn [mbind result_bind set_root_node root_node height_opt].
  destruct (build_dictionary_tree T (S (height (node_of T))) (Some (node_of T)) [])
    as (d & -> & Hsound & Hdom); [lia|].
  exists T, d. split; [done|]. split; [done|].
  destruct (forest_inv_tree _ _ Hinv) as (_ & _ & Hnd & _).
  rewrite <-paths_symbols in Hnd.
  intros c code. split.
  - intros H. by destruct (Hsound _ _ H) as (p & Hp & ->).
  - intros H. destruct (Hdom c) as [code' Hc'].
    { apply list_elem_of_fmap. by exists (c, code). }
    destruct (Hsound _ _ Hc') as (p & Hp & ->). simpl in Hc'.
    by rewrite (NoDup_fst_unique _ c code p Hnd).
Qed.

Lemma init_source_spec src :
  src ≠ [] →
  ∃ T d, __init__ (Some src) None None =
           Ok (mkHuffmanEncoding (Some (node_of T)) None (Some src) d) ∧
         forest_inv src [T] ∧
         (∀ c code, d !! c = Some code ↔ (c, code) ∈ paths T).
Proof.
  intros Hsrc. unfold __init__.
  destruct (build_huffman_tree_spec (mkHuffmanEncoding None None (Some src) ∅) src Hsrc)
    as (T & d & -> & Hinv & Hd).
  by exists T, d.
Qed.

End ConstructorFacts.

(** ** Depth and frequency *)

Section Depth.
Implicit Types (t s u v T : tree) (d : nat).

Lemma sub_size d s t : sub d s t → (tree_size s + d ≤ tree_size t)%nat.
Proof. induction 1; simpl; lia. Qed.

Lemma leaves_nonempty t : leaves t ≠ [].
Proof.
  induction t as [f c|f l IHl r IHr]; simpl; [done|].
  destruct (leaves l); [done|]. done.
Qed.

Lemma sub_leaves d s t x : sub d s t → x ∈ leaves s → x ∈ leaves t.
Proof. induction 1; simpl; rewrite ?elem_of_app; auto. Qed.

Lemma sub_ok d s t : tree_ok t → sub d s t → tree_ok s.
Proof. intros Hok Hs. induction Hs; simpl in Hok; [done|apply IHHs|apply IHHs]; tauto. Qed.

Lemma sub_weight_le d s t : tree_ok t → sub d s t → weight s ≤ weight t.
Proof.
  intros Hok Hs. induction Hs; [done| |].
  - destruct Hok as (-> & Hl & Hr). specialize (IHHs Hl).
    apply weight_pos in Hr. simpl. lia.
  - destruct Hok as (-> & Hl & Hr). specialize (IHHs Hr).
    apply weight_pos in Hl. simpl. lia.
Qed.

Lemma sub_parent d u T :
  sub (S d) u T → ∃ f a b, sub d (Branch f a b) T ∧ (u = a ∨ u = b).
Proof.
  revert T. induction d as [|d IH]; intros T Hs;
    inversion Hs as [|d0 s0 f l r Hl|d0 s0 f l r Hr]; subst.
  - inversion Hl; subst. eexists _, _, _. split; [constructor|by left].
  - inversion Hr; subst. eexists _, _, _. split; [constructor|by right].
  - destruct (IH _ Hl) as (g & a & b & Hp & Hu). exists g, a, b.
    split; [by apply sub_left|done].
  - destruct (IH _ Hr) as (g & a & b & Hp & Hu). exists g, a, b.
    split; [by apply sub_right|done].
Qed.

(** With the symbols of the leaves all different, a tree stands at one
    depth only. *)
Lemma sub_depth_unique t s d d' :
  NoDup (leaves t).*1 → sub d s t → sub d' s t → d = d'.
Proof.
  intros Hnd Hs. revert d'. induction Hs as [t|d s f l r Hs IH|d s f l r Hs IH]; intros d' Hs'.
  - apply sub_size in Hs'. lia.
  - simpl in Hnd. rewrite fmap_app in Hnd. apply NoDup_app in Hnd as (Hl & Hdisj & Hr).
    inversion Hs'; subst.
    + apply sub_size in Hs. simpl in Hs. lia.
    + f_equal. by apply IH.
    + exfalso. destruct (leaves s) as [|x k] eqn:E; [by apply leaves_nonempty in E|].
      apply (Hdisj x.1).
      * apply list_elem_of_fmap. exists x. split; [done|].
        eapply sub_leaves; [exact Hs|]. rewrite E. by left.
      * apply list_elem_of_fmap. exists x. split; [done|].
        eapply sub_leaves; [done|]. rewrite E. by left.
  - simpl in Hnd. rewrite fmap_app in Hnd. apply NoDup_app in Hnd as (Hl & Hdisj & Hr).
    inversion Hs'; subst.
    + apply sub_size in Hs. simpl in Hs. lia.
    + exfalso. destruct (leaves s) as [|x k] eqn:E; [by apply leaves_nonempty in E|].
      apply (Hdisj x.1).
      * apply list_elem_of_fmap. exists x. split; [done|].
        eapply sub_leaves; [done|]. rewrite E. by left.
      * apply list_elem_of_fmap. exists x. split; [done|].
        eapply sub_leaves; [exact Hs|]. rewrite E. by left.
    + f_equal. by apply IH.
Qed.

(** In a tree with a history of merges, a heavier tree never stands deeper
    than a lighter one. *)
Lemma depth_monotone T :
  tree_ok T → NoDup (leaves T).*1 → ranked [T] →
  ∀ du u v dv, sub du u T → sub dv v T → weight v < weight u → (du ≤ dv)%nat.
Proof.
  intros Hok Hnd (L & R1 & R2 & _).
  induction du as [|d IH]; intros u v dv Hu Hv Hw; [lia|].
  destruct (sub_parent _ _ _ Hu) as (f & a & b & HP & Hua).
  destruct dv as [|d'].
  { inversion Hv; subst. pose proof (sub_weight_le _ _ _ Hok Hu). lia. }
  destruct (sub_parent _ _ _ Hv) as (g & c & e & HQ & Hvc).
  pose proof (sub_ok _ _ _ Hok HP) as (Hf & _ & _).
  pose proof (sub_ok _ _ _ Hok HQ) as (Hg & _ & _).
  assert ((a, b) ∈ L) as Hab by (eapply (R1 T); [by left|exact HP]).
  assert ((c, e) ∈ L) as Hce by (eapply (R1 T); [by left|exact HQ]).
  apply list_elem_of_lookup in Hab as [i Hi]. apply list_elem_of_lookup in Hce as [j Hj].
  destruct (lt_eq_lt_dec i j) as [[Hlt| ->]|Hgt].
  - destruct (R2 i j _ _ Hlt Hi Hj) as (? & ? & ? & ?). simpl in *.
    destruct Hua, Hvc; subst; lia.
  - simplify_eq. by rewrite (sub_depth_unique _ _ _ _ Hnd HP HQ).
  - destruct (R2 j i _ _ Hgt Hj Hi) as (? & ? & ? & ?). simpl in *.
    apply le_n_S. eapply (IH _ _ _ HP HQ). simpl.
    destruct Hua, Hvc; subst; lia.
Qed.

Lemma paths_sub T c p : (c, p) ∈ paths T → ∃ f, sub (length p) (Leaf f c) T.
Proof.
  revert p. induction T as [f c'|f l IHl r IHr]; intros p.
  - simpl. intros [= -> ->]%list_elem_of_singleton. exists f. constructor.
  - rewrite elem_of_paths_branch.
    intros [(p' & -> & H)|(p' & -> & H)].
    + destruct (IHl _ H) as [g Hg]. exists g. simpl. by apply sub_left.
    + destruct (IHr _ H) as [g Hg]. exists g. simpl. by apply sub_right.
Qed.

Lemma sub_leaf_leaves d f c T : sub d (Leaf f c) T → (c, f) ∈ leaves T.
Proof. intros H. eapply sub_leaves; [exact H|]. simpl. by left. Qed.

End Depth.

(** ** The shape of the tree and the number of symbols *)

Lemma single_symbol_tree src T c :
  (∀ x, x ∈ src → x = c) →
  leaves T ≡ₚ frequency_table src → NoDup (leaves T).*1 →
  ∃ f, T = Leaf f c.
Proof.
  intros Hall Hl Hnd.
  assert (∀ x, x ∈ (leaves T).*1 → x = c) as Hsym.
  { intros x Hx. apply Hall. by apply (symbols_spec src T). }
  destruct T as [f c'|f l r].
  - exists f. f_equal. apply Hsym. simpl. by left.
  - exfalso. simpl in Hnd, Hsym. rewrite fmap_app in Hnd, Hsym.
    apply NoDup_app in Hnd as (_ & Hdisj & _).
    destruct (leaves l) as [|x kl] eqn:El; [by apply leaves_nonempty in El|].
    destruct (leaves r) as [|y kr] eqn:Er; [by apply leaves_nonempty in Er|].
    apply (Hdisj x.1); [by left|].
    rewrite (Hsym x.1), <-(Hsym y.1).
    + by left.
    + apply elem_of_app. right. by left.
    + apply elem_of_app. left. by left.
Qed.

Lemma two_symbols_tree src T a b :
  a ∈ src → b ∈ src → a ≠ b → leaves T ≡ₚ frequency_table src → is_branch T.
Proof.
  intros Ha Hb Hab Hl. destruct T as [f c|f l r]; [|done].
  apply (symbols_spec src _ _ Hl) in Ha, Hb. simpl in Ha, Hb.
  apply list_elem_of_singleton in Ha, Hb. congruence.
Qed.

(** ** The builder on a queue keyed by frequency *)

(** With a queue that takes the node alone and orders the nodes by their
    frequency, the rest of the builder does what the design says of it. *)

(** On a source text that is not empty the constructor returns, and the
    root it keeps is well formed: every node is either a leaf, with a
    symbol and no child, or an internal node, with both children and no
    symbol, and the frequency of an internal node is the sum of the
    frequencies of its children. *)
Lemma keyed_tree_well_formed `{Q : MinPQ} {K : KeyedByFreq Q} (src : str) :
  src ≠ [] →
  ∃ self r, __init__ (Some src) None None = Ok self ∧
            root_node self = Some r ∧ well_formed r = true.
Proof.
  intros Hsrc. destruct (init_source_spec src Hsrc) as (T & d & -> & Hinv & _).
  eexists _, _. split; [done|]. split; [done|].
  apply well_formed_node_of. by apply (forest_inv_tree src).
Qed.

(** On a source text that is not empty, the code table of the built
    tree is prefix-free: of two different symbols, the code of the one is no
    prefix of the code of the other. The leaves carry different symbols, the
    symbols of the text, and each of them has its entry in the table, which
    is the path from the root to its leaf. *)
Lemma keyed_code_table_prefix_free `{Q : MinPQ} {K : KeyedByFreq Q} (src : str) :
  src ≠ [] →
  ∃ self r, __init__ (Some src) None None = Ok self ∧ root_node self = Some r ∧
    (∀ c1 c2 k1 k2, c1 ≠ c2 → codes self !! c1 = Some k1 → codes self !! c2 = Some k2 →
                    ¬ k1 `prefix_of` k2) ∧
    NoDup (leaf_chars r) ∧
    (∀ c, c ∈ leaf_chars r ↔ c ∈ src) ∧
    (∀ c, c ∈ leaf_chars r ↔ ∃ k, codes self !! c = Some k).
Proof.
  intros Hsrc. destruct (init_source_spec src Hsrc) as (T & d & -> & Hinv & Hd).
  destruct (forest_inv_tree _ _ Hinv) as (Hok & Hl & Hnd & _).
  eexists _, _. split; [done|]. split; [done|]. simpl.
  rewrite leaf_chars_node_of. split; [|split; [done|split]].
  - intros c1 c2 k1 k2 Hne H1%Hd H2%Hd Hpre.
    by destruct (paths_prefix_free _ _ _ _ _ H1 H2 Hpre).
  - intros c. by apply symbols_spec.
  - intros c. rewrite <-paths_symbols, list_elem_of_fmap. split.
    + intros ([c' k] & -> & H). exists k. by apply Hd.
    + intros [k H%Hd]. by exists (c, k).
Qed.

(** When a symbol stands more often in the source text than another
    symbol of the text, the constructor returns and the code of the more
    frequent symbol is not longer than the code of the less frequent one. *)
Lemma keyed_more_frequent_code_not_longer `{Q : MinPQ} {K : KeyedByFreq Q}
    (src : str) (a b : ascii) :
  b ∈ src → occurrences b src < occurrences a src →
  ∃ self ka kb, __init__ (Some src) None None = Ok self ∧
    codes self !! a = Some ka ∧ codes self !! b = Some kb ∧
    (length ka ≤ length kb)%nat.
Proof.
  intros Hb Hlt.
  assert (a ∈ src) as Ha.
  { apply occurrences_pos. pose proof (occurrences_nonneg b src). lia. }
  assert (src ≠ []) as Hsrc by (intros ->; by apply elem_of_nil in Hb).
  destruct (init_source_spec src Hsrc) as (T & d & -> & Hinv & Hd).
  destruct (forest_inv_tree _ _ Hinv) as (Hok & Hl & Hnd & Hr).
  assert (∀ c, c ∈ src → ∃ k, (c, k) ∈ paths T) as Hcode.
  { intros c Hc. apply (symbols_spec src T c Hl) in Hc.
    rewrite <-paths_symbols in Hc. apply list_elem_of_fmap in Hc as ([c' k] & -> & H).
    by exists k. }
  destruct (Hcode a Ha) as [ka Hka]. destruct (Hcode b Hb) as [kb Hkb].
  eexists _, ka, kb. split; [done|]. simpl.
  split; [by apply Hd|]. split; [by apply Hd|].
  destruct (paths_sub _ _ _ Hka) as [fa Hsa]. destruct (paths_sub _ _ _ Hkb) as [fb Hsb].
  apply (depth_monotone T Hok Hnd Hr _ _ _ _ Hsa Hsb). simpl.
  apply sub_leaf_leaves, (leaves_spec src T _ _ Hl) in Hsa as [_ ->].
  apply sub_leaf_leaves, (leaves_spec src T _ _ Hl) in Hsb as [_ ->].
  done.
Qed.

(** On the empty text the constructor returns no tree: it ends with the
    exception that the queue raises when [del_min] finds it empty, or, when
    the queue answers [None], with the [AttributeError] of
    [None.is_leaf()]. *)
Lemma keyed_empty_source_raises `{Q : MinPQ} {K : KeyedByFreq Q} :
  __init__ (Some []) None None = Err QueueError ∨
  __init__ (Some []) None None = Err AttributeError.
Proof.
  unfold __init__, _build_huffman_tree, frequency_table. simpl.
  rewrite pq_len_items, pq_items_new. simpl.
  destruct (pq_del_min_none pq_new pq_items_new) as [->|[q' ->]]; [by left|by right].
Qed.

(** The round trip on a text with two different symbols or more: the
    constructor returns, the encoder returns a stream, and the decoder
    brings the text back from the stream and the root. *)
Lemma roundtrip_two_symbols `{Q : MinPQ} {K : KeyedByFreq Q} (src : str) (a b : ascii) :
  a ∈ src → b ∈ src → a ≠ b →
  ∃ self r bits, __init__ (Some src) None None = Ok self ∧ root_node self = Some r ∧
    encoding self = Ok bits ∧ _decode_encoded_text bits r = Ok src.
Proof.
  intros Ha Hb Hab.
  assert (src ≠ []) as Hsrc by (intros ->; by apply elem_of_nil in Ha).
  destruct (init_source_spec src Hsrc) as (T & d & -> & Hinv & Hd).
  destruct (forest_inv_tree _ _ Hinv) as (Hok & Hl & Hnd & _).
  destruct (join_codes_ok d src) as [bits Hbits].
  { intros c Hc. apply (symbols_spec src T c Hl) in Hc.
    rewrite <-paths_symbols in Hc. apply list_elem_of_fmap in Hc as ([c' k] & -> & H).
    exists k. by apply Hd. }
  eexists _, _, bits. split; [done|]. split; [done|]. split; [done|].
  unfold _decode_encoded_text.
  rewrite (decode_loop_join T d src) with (acc := []); [done| | |done].
  - exact (two_symbols_tree src T a b Ha Hb Hab Hl).
  - intros c code _. apply Hd.
Qed.

Lemma init_one_symbol `{Q : MinPQ} {K : KeyedByFreq Q} (c : ascii) (n : nat) :
  ∃ f, __init__ (Some (one_symbol c n)) None None =
         Ok (mkHuffmanEncoding (Some (mkNode f (Some c) None None)) None
               (Some (one_symbol c n)) {[ c := [] ]}).
Proof.
  destruct (init_source_spec (one_symbol c n)) as (T & d & -> & Hinv & Hd); [done|].
  destruct (forest_inv_tree _ _ Hinv) as (Hok & Hl & Hnd & _).
  destruct (single_symbol_tree (one_symbol c n) T c) as [f ->]; [|done|done|].
  { intros x Hx. by apply elem_of_replicate in Hx as [-> _]. }
  exists f. simpl. do 2 f_equal. apply map_eq. intros c'.
  destruct (d !! c') as [k|] eqn:E.
  - apply Hd in E. simpl in E. apply list_elem_of_singleton in E as [= -> ->].
    by rewrite lookup_singleton_eq.
  - destruct (decide (c' = c)) as [->|Hne]; [|by rewrite lookup_singleton_ne].
    assert (d !! c = Some []) as E' by (apply Hd; simpl; by left). congruence.
Qed.

Lemma join_codes_empty_code (c : ascii) (n : nat) :
  join_codes {[ c := [] ]} (replicate n c) = Ok [].
Proof.
  induction n as [|n IH]; simpl; [done|]. by rewrite lookup_singleton_eq, IH.
Qed.

(** ** The properties of the design *)

(** C1. The round trip fails on every text of one symbol: the constructor
    returns, the encoder returns the empty stream, and the decoder returns
    the empty text from it, which is not the source text. *)
Theorem roundtrip_one_symbol_loses_text `{Q : MinPQ} {K : KeyedByFreq Q}
    (c : ascii) (n : nat) :
  ∃ self r bits, __init__ (Some (one_symbol c n)) None None = Ok self ∧
    root_node self = Some r ∧
    encoding self = Ok bits ∧
    bits = [] ∧
    _decode_encoded_text bits r = Ok [] ∧
    _decode_encoded_text bits r ≠ Ok (one_symbol c n).
Proof.
  destruct (init_one_symbol c n) as [f ->]. eexists _, _, [].
  split; [done|]. split; [done|]. split.
  { unfold encoding, one_symbol. cbn [source_text codes].
    by rewrite join_codes_empty_code. }
  split; [done|]. split; [done|]. discriminate.
Qed.

(** C2. On the text "aaaa" the code table gives the symbol the empty code,
    the encoded stream is empty, not "0000", and the stream "0000" does not
    decode with the tree of the text: the root is a leaf and its child is
    [None]. *)
Theorem single_symbol_code_is_empty `{Q : MinPQ} {K : KeyedByFreq Q} :
  ∃ self r, __init__ (Some (list_ascii_of_string "aaaa")) None None = Ok self ∧
    root_node self = Some r ∧
    codes self !! "a"%char = Some [] ∧
    encoding self = Ok [] ∧
    _decode_encoded_text (list_ascii_of_string "0000") r = Err AttributeError.
Proof.
  destruct (init_one_symbol "a" 3) as [f Hinit]. eexists _, _.
  split; [exact Hinit|]. split; [done|]. done.
Qed.

(** *** The constructor on the queue of the library *)

Section LibraryQueue.
Context `{Q : MinPQ} {L : LibraryCalls Q}.

Lemma leaf_queue_library (freq_table : list (ascii * Z)) (q : pq) :
  freq_table ≠ [] → leaf_queue freq_table q = Err TypeError.
Proof.
  destruct freq_table as [|[c v] t]; [done|]. intros _. simpl.
  by rewrite pq_insert_TypeError.
Qed.

Lemma merge_loop_library (fuel : nat) (q : pq) : merge_loop fuel q = Err TypeError.
Proof. destruct fuel; simpl; by rewrite pq_len_TypeError. Qed.

(** Whatever the text, the builder raises [TypeError]: on the first
    [insert] when the text has a symbol, on [len(pq)] when it has none. *)
Lemma build_huffman_tree_library (self : HuffmanEncoding) (src : list ascii) :
  _build_huffman_tree self src = Err TypeError.
Proof.
  unfold _build_huffman_tree. cbv zeta.
  destruct (frequency_table src) as [|e t] eqn:E.
  - simpl. by rewrite pq_len_TypeError.
  - by rewrite leaf_queue_library.
Qed.

Lemma init_source_library (src : list ascii) (enc : option (list ascii)) (rt : option Node) :
  __init__ (Some src) enc rt = Err TypeError.
Proof. unfold __init__. apply build_huffman_tree_library. Qed.

End LibraryQueue.







(** C4, as the program has it. The constructor on the empty text returns
    no instance and raises an exception, and the exception is no
    [EmptyInputError]: the program has no error kinds of its own and no
    check for the empty text. *)
Theorem empty_source_raises_other_error `{Q : MinPQ} {L : LibraryCalls Q}
    (enc : option str) (rt : option Node) :
  ∃ e, __init__ (Some []) enc rt = Err e ∧ e ≠ EmptyInputError.
Proof. exists TypeError. split; [apply init_source_library|done]. Qed.

Lemma empty_source_raises_other_error_witness :
  LibraryCalls LibraryPQ ∧
  ∃ e, __init__ (Q := LibraryPQ) (Some []) None None = Err e ∧ e ≠ EmptyInputError.
Proof.
  split; [exact LibraryPQ_calls|].
  apply (empty_source_raises_other_error (Q := LibraryPQ) (L := LibraryPQ_calls)).
Defined.

(** C4, as it is stated, fails on the queue of the library: the empty text
    comes to [len(pq)], which raises [TypeError]. *)
Lemma empty_source_counterexample :
  __init__ (Q := LibraryPQ) (Some []) None None = Err TypeError ∧
  __init__ (Q := LibraryPQ) (Some []) None None ≠ Err EmptyInputError.
Proof. split; [reflexivity | discriminate]. Qed.

(** *** Streams that end in the middle of a code *)

(** A run of the decoding loop that ends away from the root either passed
    the root for the last time before its last bits, or never emitted. *)
Lemma decode_loop_split (root n : Node) (bits acc : list ascii) (node : Node) (out : list ascii) :
  decode_loop root n bits acc = Ok (node, out) → node ≠ root →
  (∃ whole part, bits = whole ++ part ∧ part ≠ [] ∧
                 decode_loop root n whole acc = Ok (root, out)) ∨
  (out = acc ∧ (bits = [] → node = n)).
Proof.
  revert n acc. induction bits as [|bit rest IH]; intros n acc; simpl.
  - intros [= <- <-] _. by right.
  - destruct (child n bit) as [next|] eqn:Hnext; [|done].
    destruct (char next) as [c|] eqn:Hc; intros Hrun Hne.
    + left. destruct (IH _ _ Hrun Hne) as [(whole & part & -> & Hpart & Hwhole)|[-> Hnil]].
      * exists (bit :: whole), part. split; [done|]. split; [done|].
        simpl. by rewrite Hnext, Hc.
      * exists [bit], rest. split; [done|]. split; [intros ->; by apply Hne, Hnil|].
        simpl. by rewrite Hnext, Hc.
    + destruct (IH _ _ Hrun Hne) as [(whole & part & -> & Hpart & Hwhole)|[-> Hnil]].
      * left. exists (bit :: whole), part. split; [done|]. split; [done|].
        simpl. by rewrite Hnext, Hc.
      * right. done.
Qed.

(** C5, as the program has it. When the stream ends and the cursor is not
    at the root, the decoder raises nothing: it returns the symbols of the
    whole codes it has read, that is the text of the part of the stream up
    to the last visit of the root, and the bits after it are dropped. *)
Theorem truncated_stream_decodes_prefix (root : Node) (bits : str) (node : Node) (out : str) :
  decode_loop root root bits [] = Ok (node, out) → node ≠ root →
  _decode_encoded_text bits root = Ok out ∧
  ∃ whole part, bits = whole ++ part ∧ part ≠ [] ∧
                decode_loop root root whole [] = Ok (root, out) ∧
                _decode_encoded_text whole root = Ok out.
Proof.
  intros Hrun Hne. split; [unfold _decode_encoded_text; by rewrite Hrun|].
  destruct (decode_loop_split _ _ _ _ _ _ Hrun Hne)
    as [(whole & part & -> & Hpart & Hwhole)|[-> Hnil]].
  - exists whole, part. split; [done|]. split; [done|]. split; [done|].
    unfold _decode_encoded_text. by rewrite Hwhole.
  - exists [], bits. split; [done|]. split; [intros ->; by apply Hne, Hnil|]. done.
Qed.

Lemma truncated_stream_decodes_prefix_witness :
  decode_loop aabc_root aabc_root (list_ascii_of_string "00101") [] =
    Ok (mkNode 2 None
          (Some (mkNode 1 (Some "b"%char) None None))
          (Some (mkNode 1 (Some "c"%char) None None)),
        list_ascii_of_string "aab") ∧
  _decode_encoded_text (list_ascii_of_string "00101") aabc_root =
    Ok (list_ascii_of_string "aab") ∧
  ∃ whole part, list_ascii_of_string "00101" = whole ++ part ∧ part ≠ [] ∧
                decode_loop aabc_root aabc_root whole [] =
                  Ok (aabc_root, list_ascii_of_string "aab") ∧
                _decode_encoded_text whole aabc_root = Ok (list_ascii_of_string "aab").
Proof.
  split; [reflexivity|].
  apply (truncated_stream_decodes_prefix aabc_root (list_ascii_of_string "00101")
           (mkNode 2 None
              (Some (mkNode 1 (Some "b"%char) None None))
              (Some (mkNode 1 (Some "c"%char) None None)))).
  - reflexivity.
  - discriminate.
Defined.

(** C5, as it is stated, fails on the text "aabc": its stream is "001011",
    and without the last bit the decoder returns "aab", the cursor on the
    branch above "b" and "c". *)
Lemma truncated_stream_counterexample :
  ∃ self bits node,
    __init__ (Q := ListPQ) (Some (list_ascii_of_string "aabc")) None None = Ok self ∧
    root_node self = Some aabc_root ∧
    encoding self = Ok bits ∧
    bits = list_ascii_of_string "001011" ∧
    decode_loop aabc_root aabc_root (removelast bits) [] = Ok (node, list_ascii_of_string "aab") ∧
    node ≠ aabc_root ∧
    _decode_encoded_text (removelast bits) aabc_root = Ok (list_ascii_of_string "aab") ∧
    _decode_encoded_text (removelast bits) aabc_root ≠ Err MalformedStreamError.
Proof.
  eexists _, _, _. split; [reflexivity|]. split; [reflexivity|].
  split; [reflexivity|]. split; [reflexivity|]. split; [reflexivity|].
  split; [discriminate|]. split; [reflexivity|discriminate].
Qed.

(** *** Symbols without a code *)

Lemma join_codes_missing (d : gmap ascii (list ascii)) (text : list ascii) (c : ascii) :
  c ∈ text → d !! c = None → join_codes d text = Err KeyError.
Proof.
  induction text as [|x text IH]; [by rewrite elem_of_nil|].
  intros Hin Hc. simpl. destruct (d !! x) as [code|] eqn:Hx; [|done].
  apply elem_of_cons in Hin as [->|Hin]; [congruence|].
  by rewrite IH.
Qed.

(** C6, as the program has it. When a symbol of the text has no entry in
    the code table, the encoder raises the [KeyError] of the subscript
    [self.codes[char]]: it returns no stream, so that no symbol is skipped
    and nothing is put in its place. *)
Theorem encoding_missing_symbol_raises_KeyError (self : HuffmanEncoding) (text : str) (c : ascii) :
  source_text self = Some text → c ∈ text → codes self !! c = None →
  encoding self = Err KeyError.
Proof.
  intros Htext Hin Hc. unfold encoding. rewrite Htext. by apply (join_codes_missing _ _ c).
Qed.

Lemma encoding_missing_symbol_raises_KeyError_witness :
  source_text decoded_ab = Some (list_ascii_of_string "ab") ∧
  "a"%char ∈ list_ascii_of_string "ab" ∧
  codes decoded_ab !! "a"%char = None ∧
  encoding decoded_ab = Err KeyError.
Proof.
  assert ("a"%char ∈ list_ascii_of_string "ab") as Hin by by left.
  split; [reflexivity|]. split; [exact Hin|]. split; [reflexivity|].
  exact (encoding_missing_symbol_raises_KeyError decoded_ab _ "a" eq_refl Hin eq_refl).
Defined.

(** C6, as it is stated, fails on the instance made of a stream and a
    root: its text has symbols, its code table is empty, and the encoder
    raises [KeyError], not [UnknownSymbolError]. *)
Lemma encoding_missing_symbol_counterexample :
  __init__ (Q := ListPQ) None (Some (list_ascii_of_string "01")) (Some ab_root) = Ok decoded_ab ∧
  codes decoded_ab !! "a"%char = None ∧
  encoding decoded_ab = Err KeyError ∧
  encoding decoded_ab ≠ Err UnknownSymbolError.
Proof.
  split; [reflexivity|]. split; [reflexivity|]. split; [reflexivity|discriminate].
Qed.

(** *** The attribute [source_text] *)

Lemma build_huffman_tree_source_text `{Q : MinPQ} (self self' : HuffmanEncoding) (src : str) :
  _build_huffman_tree self src = Ok self' → source_text self' = source_text self.
Proof.
  unfold _build_huffman_tree. cbv zeta.
  destruct (leaf_queue _ _) as [q0|e]; cbn [mbind result_bind]; [|done].
  destruct (merge_loop _ _) as [q|e]; cbn [mbind result_bind]; [|done].
  destruct (pq_del_min q) as [[r q']|e]; cbn [mbind result_bind]; [|done].
  destruct (_build_dictionary _ _ _ _) as [d|e]; cbn [mbind result_bind]; [|done].
  by intros [= <-].
Qed.

Lemma getattr_source_text (self : HuffmanEncoding) :
  getattr self "source_text" = Ok (value_of_str (source_text self)).
Proof.
  unfold getattr, instance_dict.
  rewrite lookup_insert_ne by done. by rewrite lookup_insert_eq.
Qed.

(** C9. On the instance made of a source text, the name [source_text] is
    the attribute that [__init__] assigned, the text itself, and not the
    method of the class: reading it gives the text, and calling it raises
    [TypeError], as a string is no function. *)
Theorem source_text_is_not_callable `{Q : MinPQ} (src : str) (self : HuffmanEncoding) :
  __init__ (Some src) None None = Ok self →
  getattr self "source_text" = Ok (VStr src) ∧
  call_attr self "source_text" = Err TypeError.
Proof.
  unfold __init__. intros H%build_huffman_tree_source_text. simpl in H.
  unfold call_attr. rewrite getattr_source_text, H. done.
Qed.

Lemma source_text_is_not_callable_witness :
  ∃ self, __init__ (Q := ListPQ) (Some abracadabra) None None = Ok self ∧
          getattr self "source_text" = Ok (VStr abracadabra) ∧
          call_attr self "source_text" = Err TypeError.
Proof.
  eexists. split; [reflexivity|].
  apply (source_text_is_not_callable (Q := ListPQ) abracadabra). reflexivity.
Defined.

(** *** Characters that are no bits *)

Lemma child_as_bit (node : Node) (bit : ascii) : child node (as_bit bit) = child node bit.
Proof. unfold child, as_bit. by repeat case_decide. Qed.

Lemma decode_loop_as_bit (root node : Node) (bits acc : list ascii) :
  decode_loop root node (as_bit <$> bits) acc = decode_loop root node bits acc.
Proof.
  revert node acc. induction bits as [|bit rest IH]; intros node acc; csimpl; [done|].
  rewrite child_as_bit. destruct (child node bit) as [next|]; [|done].
  destruct (char next); apply IH.
Qed.



(** * Further properties of the program *)

(** ** The frequency table *)

Lemma frequency_table_keys (src : list ascii) :
  (frequency_table src).*1 = first_occurrences src.
Proof.
  unfold first_occurrences.
  induction src as [|c0 src IH] using rev_ind; [done|].
  destruct (frequency_table_spec src) as [_ Hspec].
  rewrite frequency_table_snoc, reverse_snoc. unfold count_char. cbn [remove_dups].
  assert (c0 ∈ (frequency_table src).*1 ↔ c0 ∈ reverse src) as Hiff.
  { rewrite elem_of_reverse, list_elem_of_fmap. split.
    - intros ([c v] & -> & H). by apply Hspec in H as [? _].
    - intros H. exists (c0, occurrences c0 src). split; [done|]. by apply Hspec. }
  destruct (decide (c0 ∈ (frequency_table src).*1)) as [Hin|Hin];
    destruct (decide_rel elem_of c0 (reverse src)) as [Hin'|Hin']; try tauto.
  - by rewrite dict_incr_keys.
  - by rewrite fmap_app, reverse_cons, IH.
Qed.

(** X1. The frequency table lists the symbols of the text in the order of
    their first occurrence, each with the number of its occurrences. *)
Theorem frequency_table_first_occurrences (src : str) :
  frequency_table src = (λ c, (c, occurrences c src)) <$> first_occurrences src.
Proof.
  rewrite <-frequency_table_keys, <-list_fmap_compose.
  destruct (frequency_table_spec src) as [_ Hspec].
  rewrite <-(list_fmap_id (frequency_table src)) at 1.
  apply list_fmap_ext. intros i [c v] Hi%list_elem_of_lookup_2.
  by apply Hspec in Hi as [_ ->].
Qed.

(** ** The encoded stream *)

Lemma paths_bits (t : tree) (c : ascii) (p : list ascii) :
  (c, p) ∈ paths t → Forall is_bit p.
Proof.
  revert p. induction t as [f c'|f l IHl r IHr]; intros p.
  - simpl. intros [= -> ->]%list_elem_of_singleton. constructor.
  - rewrite elem_of_paths_branch. intros [(p' & -> & H)|(p' & -> & H)].
    + constructor; [by left|by apply IHl].
    + constructor; [by right|by apply IHr].
Qed.

Lemma paths_length (t : tree) (c : ascii) (p : list ascii) :
  (c, p) ∈ paths t → (length p < length (leaves t))%nat.
Proof.
  revert p. induction t as [f c'|f l IHl r IHr]; intros p.
  - simpl. intros [= -> ->]%list_elem_of_singleton. simpl. lia.
  - rewrite elem_of_paths_branch. simpl. rewrite length_app.
    pose proof (leaves_nonempty l) as Hnl. pose proof (leaves_nonempty r) as Hnr.
    destruct (leaves l) eqn:El; [done|]. destruct (leaves r) eqn:Er; [done|].
    intros [(p' & -> & Hp)|(p' & -> & Hp)]; simpl in *.
    + apply IHl in Hp. lia.
    + apply IHr in Hp. lia.
Qed.

Lemma paths_branch_nonempty (t : tree) (c : ascii) (p : list ascii) :
  is_branch t → (c, p) ∈ paths t → (1 ≤ length p)%nat.
Proof.
  destruct t as [f c'|f l r]; [done|]. intros _. rewrite elem_of_paths_branch.
  intros [(p' & -> & H)|(p' & -> & H)]; simpl; lia.
Qed.

Lemma join_codes_Forall (P : ascii → Prop) (d : gmap ascii (list ascii)) (text bits : list ascii) :
  (∀ c k, c ∈ text → d !! c = Some k → Forall P k) →
  join_codes d text = Ok bits → Forall P bits.
Proof.
  revert bits. induction text as [|c text IH]; intros bits Hd; simpl.
  - intros [= <-]. constructor.
  - destruct (d !! c) as [k|] eqn:Hk; [|done].
    destruct (join_codes d text) as [rest|] eqn:Hj; [|done].
    intros [= <-]. apply Forall_app. split.
    + apply (Hd c); [by left|done].
    + apply IH; [|done]. intros c' k' Hc'. apply Hd. by right.
Qed.

Lemma join_codes_length (lo hi : nat) (d : gmap ascii (list ascii)) (text bits : list ascii) :
  (∀ c k, c ∈ text → d !! c = Some k → (lo ≤ length k ≤ hi)%nat) →
  join_codes d text = Ok bits →
  (lo * length text ≤ length bits ≤ hi * length text)%nat.
Proof.
  revert bits. induction text as [|c text IH]; intros bits Hd; simpl.
  - intros [= <-]. simpl. lia.
  - destruct (d !! c) as [k|] eqn:Hk; [|done].
    destruct (join_codes d text) as [rest|] eqn:Hj; [|done].
    intros [= <-]. rewrite length_app.
    assert (lo ≤ length k ≤ hi)%nat by (apply (Hd c); [by left|done]).
    assert (lo * length text ≤ length rest ≤ hi * length text)%nat.
    { apply IH; [|done]. intros c' k' Hc'. apply Hd. by right. }
    lia.
Qed.

Lemma well_shaped_tree (n : Node) : well_shaped n = true → ∃ t, n = node_of t.
Proof.
  revert n. fix IH 1. intros [f c l r]. simpl.
  destruct c as [c|], l as [l|], r as [r|]; try done.
  - intros _. by exists (Leaf f c).
  - intros [Hl Hr]%andb_prop.
    destruct (IH l Hl) as [tl ->]. destruct (IH r Hr) as [tr ->].
    by exists (Branch f tl tr).
Qed.

Lemma well_shaped_node_of (t : tree) : well_shaped (node_of t) = true.
Proof. induction t as [f c|f l IHl r IHr]; simpl; [done|]. by rewrite IHl, IHr. Qed.

Lemma is_branch_node_of (t : tree) : is_leaf (node_of t) = false → is_branch t.
Proof. by destruct t. Qed.

(** ** The code table of a given tree *)

(** [_build_dictionary] on a tree of the right shape, within the depth the
    interpreter allows: it returns a table, whose entries are paths of the
    tree behind the prefix and whose keys are the symbols of the leaves. *)
Lemma build_dictionary_shaped (r : Node) (sr : option Node) (depth : nat) (prefix : list ascii) :
  well_shaped r = true → (height r ≤ depth)%nat →
  ∃ T d, r = node_of T ∧ _build_dictionary depth sr (Some r) prefix = Ok d ∧
         (∀ c code, d !! c = Some code → ∃ p, (c, p) ∈ paths T ∧ code = prefix ++ p) ∧
         (∀ c, c ∈ leaf_chars r → is_Some (d !! c)).
Proof.
  intros [T ->]%well_shaped_tree Hh.
  destruct (build_dictionary_tree T depth sr prefix Hh) as (d & Hd & Hsound & Hdom).
  exists T, d. split; [done|]. split; [done|]. split; [done|].
  intros c. rewrite leaf_chars_node_of, <-paths_symbols. apply Hdom.
Qed.

(** X19. On every tree of the right shape [_build_dictionary] returns a
    table that is prefix-free: its keys are the symbols of the leaves, and
    of two different symbols the code of the one is no prefix of the code of
    the other. *)
Theorem dictionary_prefix_free (r : Node) (sr : option Node) (depth : nat) (prefix : str) :
  well_shaped r = true → (height r ≤ depth)%nat →
  ∃ d, _build_dictionary depth sr (Some r) prefix = Ok d ∧
       (∀ c, c ∈ leaf_chars r ↔ is_Some (d !! c)) ∧
       (∀ c1 c2 k1 k2, c1 ≠ c2 → d !! c1 = Some k1 → d !! c2 = Some k2 →
                       ¬ k1 `prefix_of` k2).
Proof.
  intros Hr Hh.
  destruct (build_dictionary_shaped r sr depth prefix Hr Hh) as (T & d & -> & Hd & Hsound & Hdom).
  exists d. split; [done|]. split.
  - intros c. split; [apply Hdom|]. intros [k Hk].
    destruct (Hsound c k Hk) as (p & Hp & _).
    rewrite leaf_chars_node_of, <-paths_symbols. apply list_elem_of_fmap. by exists (c, p).
  - intros c1 c2 k1 k2 Hne H1 H2 Hpre.
    destruct (Hsound _ _ H1) as (p1 & Hp1 & ->). destruct (Hsound _ _ H2) as (p2 & Hp2 & ->).
    apply prefix_app_inv in Hpre.
    by destruct (paths_prefix_free _ _ _ _ _ Hp1 Hp2 Hpre).
Qed.

Lemma dictionary_prefix_free_witness :
  well_shaped aabc_root = true ∧ (height aabc_root ≤ 3)%nat ∧
  ∃ d, _build_dictionary 3 None (Some aabc_root) [] = Ok d ∧
       (∀ c, c ∈ leaf_chars aabc_root ↔ is_Some (d !! c)) ∧
       (∀ c1 c2 k1 k2, c1 ≠ c2 → d !! c1 = Some k1 → d !! c2 = Some k2 →
                       ¬ k1 `prefix_of` k2).
Proof.
  split; [reflexivity|]. split; [simpl; lia|].
  apply dictionary_prefix_free; [reflexivity|simpl; lia].
Defined.

(** X3. The codes of the table of a tree of the right shape hold no
    character but '0' and '1', and so does every stream that the encoder
    makes with that table. *)
Theorem encoding_is_bit_string (r : Node) (sr : option Node) (depth : nat) :
  well_shaped r = true → (height r ≤ depth)%nat →
  ∃ d, _build_dictionary depth sr (Some r) [] = Ok d ∧
       (∀ c k, d !! c = Some k → Forall is_bit k) ∧
       (∀ self bits, codes self = d → encoding self = Ok bits → Forall is_bit bits).
Proof.
  intros Hr Hh.
  destruct (build_dictionary_shaped r sr depth [] Hr Hh) as (T & d & -> & Hd & Hsound & Hdom).
  assert (∀ c k, d !! c = Some k → Forall is_bit k) as Hbits.
  { intros c k Hk. destruct (Hsound c k Hk) as (p & Hp & ->). by eapply paths_bits. }
  exists d. split; [done|]. split; [done|].
  intros self bits <-. unfold encoding. destruct (source_text self) as [text|].
  - apply join_codes_Forall. intros c k _. apply Hbits.
  - intros [= <-]. constructor.
Qed.

Lemma encoding_is_bit_string_witness :
  well_shaped aabc_root = true ∧ (height aabc_root ≤ 3)%nat ∧
  ∃ d, _build_dictionary 3 None (Some aabc_root) [] = Ok d ∧
       (∀ c k, d !! c = Some k → Forall is_bit k) ∧
       (∀ self bits, codes self = d → encoding self = Ok bits → Forall is_bit bits).
Proof.
  split; [reflexivity|]. split; [simpl; lia|].
  apply encoding_is_bit_string; [reflexivity|simpl; lia].
Defined.

(** X4. In the table of a tree of the right shape whose root is no leaf,
    every code has one bit at least and fewer bits than the tree has
    leaves; so a stream of the encoder is as long as the text at least, and
    at most the text times the number of the leaves less one. *)
Theorem code_length_bounds (r : Node) (sr : option Node) (depth : nat) :
  well_shaped r = true → is_leaf r = false → (height r ≤ depth)%nat →
  ∃ d, _build_dictionary depth sr (Some r) [] = Ok d ∧
       (∀ c k, d !! c = Some k → (1 ≤ length k < length (leaf_chars r))%nat) ∧
       (∀ self text bits, codes self = d → source_text self = Some text →
          encoding self = Ok bits →
          (length text ≤ length bits ≤ (length (leaf_chars r) - 1) * length text)%nat).
Proof.
  intros Hr Hleaf Hh.
  destruct (build_dictionary_shaped r sr depth [] Hr Hh) as (T & d & -> & Hd & Hsound & Hdom).
  apply is_branch_node_of in Hleaf.
  assert (∀ c k, d !! c = Some k → (1 ≤ length k < length (leaf_chars (node_of T)))%nat) as Hlen.
  { intros c k Hk. destruct (Hsound c k Hk) as (p & Hp & ->).
    rewrite leaf_chars_node_of, length_fmap. simpl. split.
    - by eapply paths_branch_nonempty.
    - by eapply paths_length. }
  exists d. split; [done|]. split; [done|].
  intros self text bits <- Htext. unfold encoding. rewrite Htext. intros Hbits.
  pose proof (join_codes_length 1 (length (leaf_chars (node_of T)) - 1) (codes self) text bits) as H.
  rewrite Nat.mul_1_l in H. apply H; [|done].
  intros c k _ Hk. specialize (Hlen c k Hk). lia.
Qed.

Lemma code_length_bounds_witness :
  well_shaped aabc_root = true ∧ is_leaf aabc_root = false ∧ (height aabc_root ≤ 3)%nat ∧
  ∃ d, _build_dictionary 3 None (Some aabc_root) [] = Ok d ∧
       (∀ c k, d !! c = Some k → (1 ≤ length k < length (leaf_chars aabc_root))%nat) ∧
       (∀ self text bits, codes self = d → source_text self = Some text →
          encoding self = Ok bits →
          (length text ≤ length bits ≤ (length (leaf_chars aabc_root) - 1) * length text)%nat).
Proof.
  split; [reflexivity|]. split; [reflexivity|]. split; [simpl; lia|].
  apply code_length_bounds; [reflexivity|reflexivity|simpl; lia].
Defined.

(** X5. With the table of a tree of the right shape whose root is no leaf,
    two texts that encode to the same stream are the same text. *)
Theorem encoding_injective (r : Node) (sr : option Node) (depth : nat) :
  well_shaped r = true → is_leaf r = false → (height r ≤ depth)%nat →
  ∃ d, _build_dictionary depth sr (Some r) [] = Ok d ∧
       ∀ t1 t2 bits, join_codes d t1 = Ok bits → join_codes d t2 = Ok bits → t1 = t2.
Proof.
  intros Hr Hleaf Hh.
  destruct (build_dictionary_shaped r sr depth [] Hr Hh) as (T & d & -> & Hd & Hsound & Hdom).
  apply is_branch_node_of in Hleaf.
  exists d. split; [done|]. intros t1 t2 bits H1 H2.
  assert (∀ t, join_codes d t = Ok bits →
               decode_loop (node_of T) (node_of T) bits [] = Ok (node_of T, t)) as Hdec.
  { intros t Ht. apply (decode_loop_join T d t Hleaf); [|done].
    intros c code _ Hc. by destruct (Hsound c code Hc) as (p & Hp & ->). }
  pose proof (Hdec t1 H1) as E1. pose proof (Hdec t2 H2) as E2. congruence.
Qed.

Lemma encoding_injective_witness :
  well_shaped aabc_root = true ∧ is_leaf aabc_root = false ∧ (height aabc_root ≤ 3)%nat ∧
  ∃ d, _build_dictionary 3 None (Some aabc_root) [] = Ok d ∧
       ∀ t1 t2 bits, join_codes d t1 = Ok bits → join_codes d t2 = Ok bits → t1 = t2.
Proof.
  split; [reflexivity|]. split; [reflexivity|]. split; [simpl; lia|].
  apply encoding_injective; [reflexivity|reflexivity|simpl; lia].
Defined.

(** X6. The round trip on a given tree of the right shape whose root is no
    leaf: a text of symbols of the leaves, encoded with the table of the
    tree, gives a stream, and the constructor on that stream and the root
    returns an instance that holds the text and the same root. *)
Theorem roundtrip_on_tree `{Q : MinPQ} (r : Node) (sr : option Node) (depth : nat) :
  well_shaped r = true → is_leaf r = false → (height r ≤ depth)%nat →
  ∃ d, _build_dictionary depth sr (Some r) [] = Ok d ∧
       ∀ text, (∀ c, c ∈ text → c ∈ leaf_chars r) →
       ∃ bits dec, join_codes d text = Ok bits ∧
                   __init__ None (Some bits) (Some r) = Ok dec ∧
                   source_text dec = Some text ∧ root dec = Some r.
Proof.
  intros Hr Hleaf Hh.
  destruct (build_dictionary_shaped r sr depth [] Hr Hh) as (T & d & -> & Hd & Hsound & Hdom).
  apply is_branch_node_of in Hleaf.
  exists d. split; [done|]. intros text Htext.
  destruct (join_codes_ok d text) as [bits Hbits]; [intros c Hc; by apply Hdom, Htext|].
  exists bits. eexists. split; [done|].
  unfold __init__, _decode_encoded_text.
  rewrite (decode_loop_join T d text Hleaf) with (acc := []); [done| |done].
  intros c code _ Hc. by destruct (Hsound c code Hc) as (p & Hp & ->).
Qed.

Lemma roundtrip_on_tree_witness :
  well_shaped aabc_root = true ∧ is_leaf aabc_root = false ∧ (height aabc_root ≤ 3)%nat ∧
  ∃ d, _build_dictionary 3 None (Some aabc_root) [] = Ok d ∧
       ∀ text, (∀ c, c ∈ text → c ∈ leaf_chars aabc_root) →
       ∃ bits dec, join_codes d text = Ok bits ∧
                   __init__ (Q := LibraryPQ) None (Some bits) (Some aabc_root) = Ok dec ∧
                   source_text dec = Some text ∧ root dec = Some aabc_root.
Proof.
  split; [reflexivity|]. split; [reflexivity|]. split; [simpl; lia|].
  apply (roundtrip_on_tree (Q := LibraryPQ)); [reflexivity|reflexivity|simpl; lia].
Defined.

(** ** The decoder on any tree *)

Lemma decode_loop_acc (root n : Node) (bits acc : list ascii) :
  decode_loop root n bits acc =
  '(m, out) ← decode_loop root n bits []; Ok (m, acc ++ out).
Proof.
  revert n acc. induction bits as [|bit rest IH]; intros n acc; simpl.
  - by rewrite app_nil_r.
  - destruct (child n bit) as [next|]; [|done].
    destruct (char next) as [c|]; [|apply IH].
    rewrite (IH root (acc ++ [c])), (IH root [c]).
    destruct (decode_loop root root rest []) as [[m out]|e]; simpl; [|done].
    by rewrite <-app_assoc.
Qed.

Lemma decode_loop_app (root n : Node) (s1 s2 acc : list ascii) :
  decode_loop root n (s1 ++ s2) acc =
  '(m, out) ← decode_loop root n s1 acc; decode_loop root m s2 out.
Proof.
  revert n acc. induction s1 as [|bit rest IH]; intros n acc; simpl; [done|].
  destruct (child n bit) as [next|]; [|done].
  destruct (char next) as [c|]; apply IH.
Qed.

(** X7. A stream that ends with the cursor at the root can be followed by
    another stream: the decoder returns the text of the first and then the
    text of the second, and fails as the second fails. *)
Theorem decoder_concat (root : Node) (s1 s2 t1 : str) :
  decode_loop root root s1 [] = Ok (root, t1) →
  _decode_encoded_text (s1 ++ s2) root =
  match _decode_encoded_text s2 root with
  | Ok t2 => Ok (t1 ++ t2)
  | Err e => Err e
  end.
Proof.
  intros H1. unfold _decode_encoded_text.
  rewrite decode_loop_app, H1. cbn [mbind result_bind].
  rewrite decode_loop_acc.
  by destruct (decode_loop root root s2 []) as [[m out]|e].
Qed.

Lemma decoder_concat_witness :
  decode_loop aabc_root aabc_root (list_ascii_of_string "010") [] =
    Ok (aabc_root, list_ascii_of_string "ab") ∧
  _decode_encoded_text (list_ascii_of_string "010" ++ list_ascii_of_string "110") aabc_root =
  match _decode_encoded_text (list_ascii_of_string "110") aabc_root with
  | Ok t2 => Ok (list_ascii_of_string "ab" ++ t2)
  | Err e => Err e
  end.
Proof.
  split; [reflexivity|]. apply decoder_concat. reflexivity.
Defined.

Lemma decode_loop_errors (root n : Node) (bits acc : list ascii) (e : exn) :
  decode_loop root n bits acc = Err e → e = AttributeError.
Proof.
  revert n acc. induction bits as [|bit rest IH]; intros n acc; simpl; [done|].
  destruct (child n bit) as [next|]; [|by intros [= <-]].
  destruct (char next); apply IH.
Qed.

(** X8. The decoder raises no exception but [AttributeError], the one of a
    call on a child that is [None]. *)
Theorem decoder_raises_only_AttributeError (root : Node) (bits : str) (e : exn) :
  _decode_encoded_text bits root = Err e → e = AttributeError.
Proof.
  unfold _decode_encoded_text.
  destruct (decode_loop root root bits []) as [[m out]|e'] eqn:E; [done|].
  intros [= <-]. by eapply decode_loop_errors.
Qed.

Lemma decoder_raises_only_AttributeError_witness :
  _decode_encoded_text (list_ascii_of_string "0") (mkNode 1 (Some "a"%char) None None) =
    Err AttributeError ∧
  AttributeError = AttributeError.
Proof.
  split; [reflexivity|].
  apply (decoder_raises_only_AttributeError (mkNode 1 (Some "a"%char) None None)
           (list_ascii_of_string "0")).
  reflexivity.
Defined.

Lemma well_formed_tree (n : Node) : well_formed n = true → ∃ t, n = node_of t.
Proof.
  revert n. fix IH 1. intros [f c l r]. simpl.
  destruct c as [c|], l as [l|], r as [r|]; try done.
  - intros _. by exists (Leaf f c).
  - intros [[_ Hl]%andb_prop Hr]%andb_prop.
    destruct (IH l Hl) as [tl ->]. destruct (IH r Hr) as [tr ->].
    by exists (Branch f tl tr).
Qed.

Lemma sub_trans (d d' : nat) (u s t : tree) :
  sub d s t → sub d' u s → sub (d + d') u t.
Proof. induction 1; intros Hu; simpl; [done|apply sub_left|apply sub_right]; auto. Qed.

Lemma sub_children (d : nat) (f : Z) (l r t : tree) :
  sub d (Branch f l r) t → sub (S d) l t ∧ sub (S d) r t.
Proof.
  intros H. split.
  - replace (S d) with (d + 1)%nat by lia. eapply sub_trans; [exact H|].
    apply sub_left. constructor.
  - replace (S d) with (d + 1)%nat by lia. eapply sub_trans; [exact H|].
    apply sub_right. constructor.
Qed.

(** On a tree with a branch at the root the decoding loop returns on every
    stream, emits one symbol for a bit at most, and emits symbols of the
    leaves only. *)
Lemma decode_loop_tree (T : tree) (bits : list ascii) :
  is_branch T →
  ∀ s d acc, is_branch s → sub d s T →
  ∃ m out, decode_loop (node_of T) (node_of s) bits acc = Ok (m, acc ++ out) ∧
           (length out ≤ length bits)%nat ∧
           ∀ c, c ∈ out → c ∈ (leaves T).*1.
Proof.
  intros HT. induction bits as [|bit rest IH]; intros s d acc Hs Hsub.
  - exists (node_of s), []. rewrite app_nil_r. split; [done|]. split; [done|].
    intros c Hc. by apply elem_of_nil in Hc.
  - destruct s as [f c|f l r]; [done|].
    destruct (sub_children _ _ _ _ _ Hsub) as [Hl Hr].
    assert (∀ x, sub (S d) x T →
              ∃ m out, match char (node_of x) with
                       | Some c => decode_loop (node_of T) (node_of T) rest (acc ++ [c])
                       | None => decode_loop (node_of T) (node_of x) rest acc
                       end = Ok (m, acc ++ out) ∧
                       (length out ≤ S (length rest))%nat ∧
                       ∀ c, c ∈ out → c ∈ (leaves T).*1) as Hx.
    { intros [g c|g x1 x2] Hxs; simpl.
      - destruct (IH T O (acc ++ [c]) HT (sub_here T)) as (m & out & E & Hlen & Hin).
        exists m, (c :: out). rewrite E, <-app_assoc. split; [done|]. split; [simpl; lia|].
        intros c' [Hc'|Hc']%elem_of_cons; [|by apply Hin]. subst c'.
        apply list_elem_of_fmap. exists (c, g). split; [done|].
        by eapply sub_leaf_leaves.
      - destruct (IH (Branch g x1 x2) (S d) acc I Hxs) as (m & out & E & Hlen & Hin).
        exists m, out. split; [done|]. split; [lia|done]. }
    cbn [decode_loop]. unfold child. cbn [node_of left right].
    case_decide; [apply (Hx l Hl)|apply (Hx r Hr)].
Qed.

Lemma decode_well_formed (r : Node) (bits : list ascii) :
  well_formed r = true → is_leaf r = false →
  ∃ out, _decode_encoded_text bits r = Ok out ∧
         (length out ≤ length bits)%nat ∧
         ∀ c, c ∈ out → c ∈ leaf_chars r.
Proof.
  intros [T ->]%well_formed_tree Hleaf.
  assert (is_branch T) as HT by by destruct T.
  destruct (decode_loop_tree T bits HT T O [] HT (sub_here T)) as (m & out & E & Hlen & Hin).
  exists out. unfold _decode_encoded_text. rewrite E. split; [done|]. split; [done|].
  by rewrite leaf_chars_node_of.
Qed.

(** X9. On a tree of the right shape (every node a leaf without children
    or an internal node with both children, whatever the frequencies) whose
    root is no leaf, the decoder returns on every stream, whatever its
    characters: the text has one symbol for a character of the stream at
    most, and symbols of the leaves only. *)
Theorem decoder_total_on_well_shaped (r : Node) (bits : str) :
  well_shaped r = true → is_leaf r = false →
  ∃ out, _decode_encoded_text bits r = Ok out ∧
         (length out ≤ length bits)%nat ∧
         ∀ c, c ∈ out → c ∈ leaf_chars r.
Proof.
  intros [T ->]%well_shaped_tree Hleaf.
  assert (is_branch T) as HT by by destruct T.
  destruct (decode_loop_tree T bits HT T O [] HT (sub_here T)) as (m & out & E & Hlen & Hin).
  exists out. unfold _decode_encoded_text. rewrite E. split; [done|]. split; [done|].
  by rewrite leaf_chars_node_of.
Qed.

Lemma decoder_total_on_well_shaped_witness :
  well_shaped (mkNode 7 None (Some (mkNode 1 (Some "a"%char) None None))
                             (Some (mkNode 1 (Some "b"%char) None None))) = true ∧
  is_leaf (mkNode 7 None (Some (mkNode 1 (Some "a"%char) None None))
                         (Some (mkNode 1 (Some "b"%char) None None))) = false ∧
  ∃ out, _decode_encoded_text (list_ascii_of_string "0110")
           (mkNode 7 None (Some (mkNode 1 (Some "a"%char) None None))
                          (Some (mkNode 1 (Some "b"%char) None None))) = Ok out ∧
         (length out ≤ length (list_ascii_of_string "0110"))%nat ∧
         ∀ c, c ∈ out →
              c ∈ leaf_chars (mkNode 7 None (Some (mkNode 1 (Some "a"%char) None None))
                                            (Some (mkNode 1 (Some "b"%char) None None))).
Proof.
  split; [reflexivity|]. split; [reflexivity|].
  apply decoder_total_on_well_shaped; reflexivity.
Defined.

(** X10. On a well-formed tree and a stream that is not empty, the decoder
    raises exactly when the root is a leaf: the tree of a text of one symbol
    decodes no stream but the empty one. *)
Theorem decoder_fails_iff_leaf_root (r : Node) (bits : str) :
  well_formed r = true → bits ≠ [] →
  is_leaf r = true ↔ _decode_encoded_text bits r = Err AttributeError.
Proof.
  intros Hwf Hbits. split.
  - destruct (well_formed_tree r Hwf) as [[f c|f l r'] ->]; [|done].
    intros _. destruct bits as [|bit rest]; [done|].
    unfold _decode_encoded_text. cbn [decode_loop node_of]. unfold child.
    cbn [left right]. by case_decide.
  - intros Herr. destruct (is_leaf r) eqn:Hleaf; [done|].
    destruct (decode_well_formed r bits Hwf Hleaf) as (out & E & _). congruence.
Qed.

Lemma decoder_fails_iff_leaf_root_witness :
  well_formed (mkNode 4 (Some "a"%char) None None) = true ∧
  list_ascii_of_string "0000" ≠ [] ∧
  (is_leaf (mkNode 4 (Some "a"%char) None None) = true ↔
   _decode_encoded_text (list_ascii_of_string "0000") (mkNode 4 (Some "a"%char) None None) =
     Err AttributeError).
Proof.
  split; [reflexivity|]. split; [discriminate|].
  apply decoder_fails_iff_leaf_root; [reflexivity|discriminate].
Defined.

(** ** From the stream back to the stream *)

(** The decoding loop on a branch [s] of the tree, on bits only: either it
    reads a whole path of [s], emits its symbol and goes on from the root,
    or the stream ends below [s] and nothing is emitted. *)
Lemma decode_first_code (T : tree) (bits : list ascii) :
  ∀ s d acc m out, is_branch s → sub d s T → Forall is_bit bits →
  decode_loop (node_of T) (node_of s) bits acc = Ok (m, out) →
  (∃ c p rest, bits = p ++ rest ∧ p ≠ [] ∧ (c, p) ∈ paths s ∧
               decode_loop (node_of T) (node_of T) rest (acc ++ [c]) = Ok (m, out)) ∨
  (out = acc ∧ ∃ s', m = node_of s' ∧ sub (d + length bits) s' T).
Proof.
  induction bits as [|bit rest IH]; intros s d acc m out Hs Hsub Hbits; simpl.
  - intros [= <- <-]. right. split; [done|]. exists s. by rewrite Nat.add_0_r.
  - destruct s as [f c|f l r]; [done|].
    destruct (sub_children _ _ _ _ _ Hsub) as [Hl Hr].
    apply Forall_cons in Hbits as [Hbit Hbits].
    assert (∀ x, sub (S d) x T → (∀ c p, (c, p) ∈ paths x → (c, bit :: p) ∈ paths (Branch f l r)) →
              match char (node_of x) with
              | Some c => decode_loop (node_of T) (node_of T) rest (acc ++ [c])
              | None => decode_loop (node_of T) (node_of x) rest acc
              end = Ok (m, out) →
              (∃ c p rest', bit :: rest = p ++ rest' ∧ p ≠ [] ∧ (c, p) ∈ paths (Branch f l r) ∧
                 decode_loop (node_of T) (node_of T) rest' (acc ++ [c]) = Ok (m, out)) ∨
              (out = acc ∧ ∃ s', m = node_of s' ∧ sub (d + S (length rest)) s' T)) as Hx.
    { intros [g c|g x1 x2] Hxs Hpaths; simpl; intros Hrun.
      - left. exists c, [bit], rest. split; [done|]. split; [done|]. split; [|done].
        apply Hpaths. simpl. by left.
      - destruct (IH (Branch g x1 x2) (S d) acc m out I Hxs Hbits Hrun)
          as [(c & p & rest' & -> & Hp & Hin & Hrun')|[-> (s' & -> & Hs')]].
        + left. exists c, (bit :: p), rest'. split; [done|]. split; [done|].
          split; [by apply Hpaths|done].
        + right. split; [done|]. exists s'. split; [done|].
          by rewrite Nat.add_succ_r. }
    unfold child. cbn [node_of left right].
    destruct Hbit as [->| ->].
    + rewrite decide_True by done. apply (Hx l Hl).
      intros c p Hp. apply elem_of_paths_branch. left. eauto.
    + rewrite decide_False by done. apply (Hx r Hr).
      intros c p Hp. apply elem_of_paths_branch. right. eauto.
Qed.

Lemma decode_encode_tree (T : tree) (d : gmap ascii (list ascii)) :
  is_branch T → (∀ c p, (c, p) ∈ paths T → d !! c = Some p) →
  ∀ n bits acc out, (length bits ≤ n)%nat → Forall is_bit bits →
  decode_loop (node_of T) (node_of T) bits acc = Ok (node_of T, out) →
  ∃ text, out = acc ++ text ∧ join_codes d text = Ok bits.
Proof.
  intros HT Hd. induction n as [|n IH]; intros bits acc out Hlen Hbits Hrun.
  - destruct bits; [|simpl in Hlen; lia]. simpl in Hrun. injection Hrun as <-.
    exists []. by rewrite app_nil_r.
  - destruct (decode_first_code T bits T O acc _ _ HT (sub_here T) Hbits Hrun)
      as [(c & p & rest & -> & Hp & Hin & Hrun')|[-> (s' & Hs' & Hsub)]].
    + apply Forall_app in Hbits as [_ Hrest].
      destruct (IH rest (acc ++ [c]) out) as (text & -> & Htext); [|done|done|].
      { rewrite length_app in Hlen. destruct p; [done|]. simpl in Hlen. lia. }
      exists (c :: text). rewrite <-app_assoc. split; [done|].
      simpl. by rewrite (Hd c p Hin), Htext.
    + apply node_of_inj in Hs' as <-. apply sub_size in Hsub.
      destruct bits; [|simpl in Hsub; lia].
      exists []. by rewrite app_nil_r.
Qed.

Lemma getattr_build_dictionary (self : HuffmanEncoding) :
  getattr self "_build_dictionary" = Ok (VMethod m_build_dictionary).
Proof.
  unfold getattr, instance_dict.
  rewrite !lookup_insert_ne, lookup_empty by done. by vm_compute.
Qed.

(** X11. From the stream back to the stream, on a tree of the right shape
    with different symbols on its leaves and a root that is no leaf: when
    the decoder reads a stream to its end with the cursor back at the root,
    the instance made of the stream and the root holds the decoded text,
    its [_build_dictionary()] returns a table and leaves the instance as it
    is, and the codes of the text in that table give the stream back, each
    character that is not '0' as '1'. *)
Theorem decode_then_encode `{Q : MinPQ} (r : Node) (bits text : str) (dec : HuffmanEncoding) :
  well_shaped r = true → is_leaf r = false → NoDup (leaf_chars r) →
  decode_loop r r bits [] = Ok (r, text) →
  __init__ None (Some bits) (Some r) = Ok dec →
  ∃ d, call_attr dec "_build_dictionary" = Ok (VDict d, dec) ∧
       source_text dec = Some text ∧
       join_codes d text = Ok (as_bit <$> bits).
Proof.
  intros Hr Hleaf Hnd Hrun Hinit.
  unfold __init__, _decode_encoded_text in Hinit. rewrite Hrun in Hinit.
  cbn [mbind result_bind] in Hinit. injection Hinit as <-.
  destruct (build_dictionary_shaped r (Some r) (S (height r)) [] Hr) as
    (T & d & -> & Hd & Hsound & Hdom); [lia|].
  apply is_branch_node_of in Hleaf.
  exists d. split; [|split; [done|]].
  - unfold call_attr. rewrite getattr_build_dictionary.
    cbn [mbind result_bind set_source_text set_root_node root_node height_opt].
    cbn [_build_dictionary] in Hd |- *. by rewrite Hd.
  - rewrite leaf_chars_node_of, <-paths_symbols in Hnd.
    rewrite <-decode_loop_as_bit in Hrun.
    destruct (decode_encode_tree T d Hleaf) with (n := length (as_bit <$> bits))
      (bits := as_bit <$> bits) (acc := @nil ascii) (out := text) as (text' & -> & Htext);
      [|done| |done|done].
    + intros c p Hp. destruct (Hdom c) as [k Hk].
      { rewrite leaf_chars_node_of, <-paths_symbols. apply list_elem_of_fmap. by exists (c, p). }
      destruct (Hsound c k Hk) as (p' & Hp' & ->). simpl.
      by rewrite (NoDup_fst_unique _ c p p' Hnd).
    + apply Forall_fmap, Forall_forall. intros c _. unfold as_bit, is_bit. simpl.
      case_decide; auto.
Qed.

Lemma decode_then_encode_witness :
  well_shaped aabc_root = true ∧ is_leaf aabc_root = false ∧ NoDup (leaf_chars aabc_root) ∧
  decode_loop aabc_root aabc_root (list_ascii_of_string "0x011") [] =
    Ok (aabc_root, list_ascii_of_string "abc") ∧
  __init__ (Q := LibraryPQ) None (Some (list_ascii_of_string "0x011")) (Some aabc_root) =
    Ok (mkHuffmanEncoding (Some aabc_root) (Some (list_ascii_of_string "0x011"))
          (Some (list_ascii_of_string "abc")) ∅) ∧
  ∃ d, call_attr (mkHuffmanEncoding (Some aabc_root) (Some (list_ascii_of_string "0x011"))
                    (Some (list_ascii_of_string "abc")) ∅) "_build_dictionary" =
         Ok (VDict d, mkHuffmanEncoding (Some aabc_root) (Some (list_ascii_of_string "0x011"))
                        (Some (list_ascii_of_string "abc")) ∅) ∧
       source_text (mkHuffmanEncoding (Some aabc_root) (Some (list_ascii_of_string "0x011"))
                      (Some (list_ascii_of_string "abc")) ∅) = Some (list_ascii_of_string "abc") ∧
       join_codes d (list_ascii_of_string "abc") = Ok (as_bit <$> list_ascii_of_string "0x011").
Proof.
  assert (NoDup (leaf_chars aabc_root)) as Hnd.
  { simpl. apply NoDup_cons. split; [|apply NoDup_cons; split; [|apply NoDup_singleton]].
    - intros [E|[E|E]%elem_of_cons]%elem_of_cons; try discriminate E. by apply elem_of_nil in E.
    - intros [E|E]%elem_of_cons; try discriminate E. by apply elem_of_nil in E. }
  split; [reflexivity|]. split; [reflexivity|]. split; [exact Hnd|].
  split; [reflexivity|]. split; [reflexivity|].
  apply (decode_then_encode (Q := LibraryPQ) aabc_root (list_ascii_of_string "0x011"));
    [reflexivity|reflexivity|exact Hnd|reflexivity|reflexivity].
Defined.

(** ** The ways of the constructor *)

(** X13. Without a source text, and without the stream or without the
    root, the constructor decodes nothing: the instance keeps the stream it
    was given and no root, even when a root was given; it has no text, and
    its encoder returns the empty stream. *)
Theorem init_without_input `{Q : MinPQ} (enc : option str) (rt : option Node) :
  enc = None ∨ rt = None →
  ∃ self, __init__ None enc rt = Ok self ∧
    root_node self = None ∧ encoded_text self = enc ∧ source_text self = None ∧
    encoding self = Ok [] ∧ call_attr self "root" = Ok (VNone, self).
Proof.
  intros [-> | ->]; [|destruct enc]; eexists; (split; [reflexivity|]); by vm_compute.
Qed.

Lemma init_without_input_witness :
  ((None : option str) = None ∨ Some ab_root = None) ∧
  ∃ self, __init__ (Q := ListPQ) None None (Some ab_root) = Ok self ∧
    root_node self = None ∧ encoded_text self = None ∧ source_text self = None ∧
    encoding self = Ok [] ∧ call_attr self "root" = Ok (VNone, self).
Proof.
  split; [left; reflexivity|].
  apply (init_without_input (Q := ListPQ) None (Some ab_root)). left. reflexivity.
Defined.

(** X14. With a source text, the constructor builds from the text alone:
    a stream and a root given with it change nothing but the attribute
    [encoded_text], which keeps the stream. *)
Theorem init_source_ignores_stream `{Q : MinPQ} (src : str) (enc : option str) (rt : option Node) :
  __init__ (Some src) enc rt =
  match __init__ (Some src) None None with
  | Ok self => Ok (mkHuffmanEncoding (root_node self) enc (source_text self) (codes self))
  | Err e => Err e
  end.
Proof.
  unfold __init__, _build_huffman_tree. cbv zeta.
  destruct (leaf_queue _ _) as [q0|e]; cbn [mbind result_bind]; [|done].
  destruct (merge_loop _ _) as [q|e]; cbn [mbind result_bind]; [|done].
  destruct (pq_del_min q) as [[r q']|e]; cbn [mbind result_bind]; [|done].
  cbn [set_root_node root_node].
  destruct (_build_dictionary _ _ _ _) as [d|e]; cbn [mbind result_bind]; done.
Qed.

Lemma join_codes_empty_table (text : list ascii) :
  join_codes ∅ text = if decide (text = []) then Ok [] else Err KeyError.
Proof. destruct text as [|c text]; [done|]. simpl. by rewrite lookup_empty. Qed.

(** X15. The instance made of a stream and a root has an empty code table:
    it holds the decoded text and the root, and its encoder raises
    [KeyError], unless the decoded text is empty. *)
Theorem decoded_instance_cannot_encode `{Q : MinPQ} (bits : str) (r : Node) (self : HuffmanEncoding) :
  __init__ None (Some bits) (Some r) = Ok self →
  ∃ text, _decode_encoded_text bits r = Ok text ∧
          source_text self = Some text ∧ root self = Some r ∧
          encoding self = if decide (text = []) then Ok [] else Err KeyError.
Proof.
  unfold __init__. destruct (_decode_encoded_text bits r) as [text|e]; [|done].
  cbn [mbind result_bind]. intros [= <-]. exists text.
  split; [done|]. split; [done|]. split; [done|].
  unfold encoding. cbn [source_text codes set_source_text set_root_node].
  apply join_codes_empty_table.
Qed.

Lemma decoded_instance_cannot_encode_witness :
  __init__ (Q := ListPQ) None (Some (list_ascii_of_string "01")) (Some ab_root) = Ok decoded_ab ∧
  ∃ text, _decode_encoded_text (list_ascii_of_string "01") ab_root = Ok text ∧
          source_text decoded_ab = Some text ∧ root decoded_ab = Some ab_root ∧
          encoding decoded_ab = if decide (text = []) then Ok [] else Err KeyError.
Proof.
  split; [reflexivity|].
  apply (decoded_instance_cannot_encode (Q := ListPQ) (list_ascii_of_string "01")).
  reflexivity.
Defined.

(** X16. When the decoder raises, the constructor on a stream and a root
    raises the same exception and makes no instance. *)
Theorem init_decode_error `{Q : MinPQ} (bits : str) (r : Node) (e : exn) :
  _decode_encoded_text bits r = Err e →
  __init__ None (Some bits) (Some r) = Err e ∧ e = AttributeError.
Proof.
  intros H. unfold __init__. rewrite H. split; [done|].
  unfold _decode_encoded_text in H.
  destruct (decode_loop r r bits []) as [[m out]|e'] eqn:E; [done|].
  injection H as <-. by eapply decode_loop_errors.
Qed.

Lemma init_decode_error_witness :
  _decode_encoded_text (list_ascii_of_string "0") (mkNode 1 (Some "a"%char) None None) =
    Err AttributeError ∧
  __init__ (Q := ListPQ) None (Some (list_ascii_of_string "0"))
    (Some (mkNode 1 (Some "a"%char) None None)) = Err AttributeError ∧
  AttributeError = AttributeError.
Proof.
  split; [reflexivity|].
  apply (init_decode_error (Q := ListPQ)). reflexivity.
Defined.

(** ** The code table of a tree with a missing child *)

Lemma build_dictionary_restarts (rt : Node) (depth : nat) :
  char rt = None → left rt = None →
  ∀ node prefix, node = None ∨ node = Some rt →
  _build_dictionary depth (Some rt) node prefix = Err RecursionError.
Proof.
  intros Hc Hl. induction depth as [|depth IH]; intros node prefix Hnode; [done|].
  cbn [_build_dictionary].
  destruct Hnode as [-> | ->];
    rewrite Hc, Hl, (IH None (prefix ++ ["0"%char])) by (by left); done.
Qed.

(** X17. On a root without a symbol and without a left child,
    [_build_dictionary] returns no table, whatever the depth it may reach:
    the child that is [None] sends the walk back to the root, and the calls
    nest until the interpreter raises [RecursionError]. *)
Theorem build_dictionary_missing_child (rt : Node) (depth : nat) (prefix : str) :
  char rt = None → left rt = None →
  _build_dictionary depth (Some rt) (Some rt) prefix = Err RecursionError ∧
  _build_dictionary depth (Some rt) None prefix = Err RecursionError.
Proof.
  intros Hc Hl. split; apply build_dictionary_restarts; auto.
Qed.

Lemma build_dictionary_missing_child_witness :
  char (mkNode 2 None None (Some (mkNode 2 (Some "a"%char) None None))) = None ∧
  left (mkNode 2 None None (Some (mkNode 2 (Some "a"%char) None None))) = None ∧
  _build_dictionary 1000 (Some (mkNode 2 None None (Some (mkNode 2 (Some "a"%char) None None))))
    (Some (mkNode 2 None None (Some (mkNode 2 (Some "a"%char) None None)))) [] =
    Err RecursionError ∧
  _build_dictionary 1000 (Some (mkNode 2 None None (Some (mkNode 2 (Some "a"%char) None None))))
    None [] = Err RecursionError.
Proof.
  split; [reflexivity|]. split; [reflexivity|].
  apply build_dictionary_missing_child; reflexivity.
Defined.

(** ** The methods that are not hidden *)

(** X18. The attributes set by [__init__] hide no method but
    [source_text]: on every instance the calls [root()] and [encoding()]
    reach the methods of the class, and give the root and what the encoder
    returns. *)
Theorem root_and_encoding_are_callable (self : HuffmanEncoding) :
  call_attr self "root" = Ok (value_of_node (root_node self), self) ∧
  call_attr self "encoding" =
    match encoding self with
    | Ok s => Ok (VStr s, self)
    | Err e => Err e
    end.
Proof.
  unfold call_attr, getattr, instance_dict.
  rewrite !lookup_insert_ne, !lookup_empty by done.
  split; [by vm_compute|].
  replace (class_dict !! "encoding"%string) with (Some (VMethod m_encoding)) by by vm_compute.
  cbn [mbind result_bind]. by destruct (encoding self).
Qed.

(** [self.__init__()] in [call_attr] is the constructor without
    arguments. *)
Lemma call_init_is_init `{Q : MinPQ} (self : HuffmanEncoding) :
  call_attr self "__init__" =
  match __init__ None None None with
  | Ok self' => Ok (VNone, self')
  | Err e => Err e
  end.
Proof.
  unfold call_attr, getattr, instance_dict.
  rewrite !lookup_insert_ne, !lookup_empty by done. by vm_compute.
Qed.
